(** * The cached record-store accessor of [src/js/indexedDbAccessor.js]

    The module keeps three pieces of module-level state: the shared
    connection [dbConnection], the TTL read cache [memoryCache] and, behind
    the connection, the IndexedDB database itself.  All of them live in one
    [World] record here, next to the clock that [Date.now()] reads, the
    plan of faults the browser may raise, and a trace of every call made
    against the IndexedDB API.

    An [async] function of the source becomes a function from worlds to a
    settled (or forever pending) promise and the world it leaves behind.
    One call runs at one reading of the clock; time passes between calls
    ([tick]).  Numbers are integers ([skip] and [take] within the range
    [cursor.advance] accepts), records carry the two fields the accessor
    looks at ([id], [UploadDate]) and the remaining ones as a list of named
    strings, and a structured clone is the record itself.  Console output
    is left out; [CACHE_ENABLED] is [true] as in the source. *)

From Stdlib Require Import ZArith Ascii.
From stdpp Require Import gmap strings list fin_maps pretty.

Local Open Scope string_scope.
Local Open Scope list_scope.
Local Open Scope Z_scope.

(** ** JavaScript values the accessor handles *)

(** What may sit in the [id] property of a value, or be passed as [id]. *)
Inductive idval :=
| IdUndefined
| IdNull
| IdBool (b : bool)
| IdNum (n : Z)
| IdStr (s : string).

Record record := {
  rec_id : idval;                     (* value.id *)
  rec_UploadDate : option Z;          (* time value of new Date(value.UploadDate); None: invalid date *)
  rec_fields : list (string * string) (* every other field *)
}.

Inductive jsval :=
| Undefined
| Null
| Obj (r : record).

(** What a promise rejects with: a plain string ([Promise.reject("...")])
    or the DOMException of a failed IndexedDB call. *)
Inductive error :=
| ErrString (s : string)
| DOMException (name : string).

Inductive promise (A : Type) :=
| Pending
| Resolved (a : A)
| Rejected (e : error).
Arguments Pending {A}.
Arguments Resolved {A} a.
Arguments Rejected {A} e.

(** [!id] is false for these. *)
Definition id_truthy (i : idval) : bool :=
  match i with
  | IdUndefined | IdNull => false
  | IdBool b => b
  | IdNum n => negb (n =? 0)
  | IdStr s => negb (String.eqb s "")
  end.

Definition truthy (v : jsval) : bool :=
  match v with
  | Undefined | Null => false
  | Obj _ => true
  end.

Definition str_truthy (s : string) : bool := negb (String.eqb s "").

(** [value.id]; never evaluated on [undefined] or [null] by the source. *)
Definition value_id (v : jsval) : idval :=
  match v with
  | Obj r => rec_id r
  | _ => IdUndefined
  end.

(** [`${id}`]; a number prints with all its digits, which is how JavaScript
    prints the integers up to 2^53 - 1 in absolute value; the rounded digits
    and the exponent form of larger numbers are not modelled. *)
Definition id_to_string (i : idval) : string :=
  match i with
  | IdUndefined => "undefined"
  | IdNull => "null"
  | IdBool b => if b then "true" else "false"
  | IdNum n => pretty n
  | IdStr s => s
  end.

(** Numbers and strings are IndexedDB keys; the other values make a
    request throw [DataError]. *)
Definition valid_key (i : idval) : bool :=
  match i with
  | IdNum _ | IdStr _ => true
  | _ => false
  end.

(** IndexedDB key order: numbers before strings. *)
Definition key_compare (a b : idval) : comparison :=
  match a, b with
  | IdNum x, IdNum y => Z.compare x y
  | IdNum _, IdStr _ => Lt
  | IdStr _, IdNum _ => Gt
  | IdStr x, IdStr y => String.compare x y
  | _, _ => Eq
  end.

Definition key_eqb (a b : idval) : bool :=
  match key_compare a b with Eq => true | _ => false end.

(** ** The database behind the connection *)

(** An object store with key path [id]: its records in key order, and the
    names of its indexes. *)
Record objectStore := {
  records : list record;
  indexNames : list string
}.

Fixpoint store_put (v : record) (l : list record) : list record :=
  match l with
  | [] => [v]
  | x :: rest =>
      match key_compare (rec_id v) (rec_id x) with
      | Lt => v :: x :: rest
      | Eq => v :: rest
      | Gt => x :: store_put v rest
      end
  end.

Definition store_get (k : idval) (l : list record) : option record :=
  List.find (fun x => key_eqb k (rec_id x)) l.

Definition store_delete (k : idval) (l : list record) : list record :=
  List.filter (fun x => negb (key_eqb k (rec_id x))) l.

(** Insertion by descending [UploadDate]; among equal dates the record
    inserted later (the larger primary key) comes first. *)
Fixpoint insert_desc (v : record) (d : Z) (l : list record) : list record :=
  match l with
  | [] => [v]
  | x :: rest =>
      match rec_UploadDate x with
      | Some dx => if dx <=? d then v :: x :: rest else x :: insert_desc v d rest
      | None => v :: x :: rest
      end
  end.

(** What [index.openCursor(null, "prev")] walks over, for stores whose
    [UploadDate] values are [Date] objects, or are all numbers that are time
    values: the index then orders its keys as their time values and leaves
    out the records without a valid date, so the cursor meets the records
    that have one, newest first.  The key order of other kinds of value
    (strings compare as text, numbers come before dates and dates before
    strings) is not modelled. *)
Definition index_prev (l : list record) : list record :=
  fold_left (fun acc v =>
               match rec_UploadDate v with
               | Some d => insert_desc v d acc
               | None => acc
               end) l [].

(** ** The world *)

Inductive mode := ReadOnly | ReadWrite.

(** Calls against the IndexedDB API, as the trace records them, and the
    commit of a transaction, which only the fault plan mentions. *)
Inductive op :=
| OpOpen
| OpTransaction (c : string) (m : mode)
| OpPut (c : string) (v : record)
| OpGet (c : string) (k : idval)
| OpDelete (c : string) (k : idval)
| OpCount (c : string)
| OpOpenCursor (c : string)
| OpIndexCursor (c : string) (index : string)
| OpCommit (c : string).

Record cacheEntry := {
  value : record;
  expires : Z
}.

Record World := {
  database : gmap string objectStore;    (* object stores by name *)
  memoryCache : gmap string cacheEntry;  (* const memoryCache = new Map() *)
  dbConnection : bool;                   (* let dbConnection: null or the open handle *)
  clock : Z;                             (* Date.now() *)
  faults : op -> option error;           (* which calls the browser fails, and how *)
  trace : list op                        (* calls made so far, oldest first *)
}.

Definition CACHE_TTL : Z := 86400000.

Definition set_database (d : gmap string objectStore) (w : World) : World :=
  {| database := d; memoryCache := memoryCache w; dbConnection := dbConnection w;
     clock := clock w; faults := faults w; trace := trace w |}.

Definition set_memoryCache (m : gmap string cacheEntry) (w : World) : World :=
  {| database := database w; memoryCache := m; dbConnection := dbConnection w;
     clock := clock w; faults := faults w; trace := trace w |}.

Definition set_dbConnection (b : bool) (w : World) : World :=
  {| database := database w; memoryCache := memoryCache w; dbConnection := b;
     clock := clock w; faults := faults w; trace := trace w |}.

Definition log (o : op) (w : World) : World :=
  {| database := database w; memoryCache := memoryCache w; dbConnection := dbConnection w;
     clock := clock w; faults := faults w; trace := trace w ++ [o] |}.

(** Time passing between two calls. *)
Definition tick (d : Z) (w : World) : World :=
  {| database := database w; memoryCache := memoryCache w; dbConnection := dbConnection w;
     clock := clock w + d; faults := faults w; trace := trace w |}.

(** ** Asynchronous functions *)

Definition Async (A : Type) : Type := World -> promise A * World.

Definition Promise_resolve {A} (a : A) : Async A := fun w => (Resolved a, w).
Definition Promise_reject {A} (e : error) : Async A := fun w => (Rejected e, w).

(** [const x = await m; k x] outside any [try]. *)
Definition await {A B} (m : Async A) (k : A -> Async B) : Async B :=
  fun w =>
    match m w with
    | (Resolved a, w') => k a w'
    | (Rejected e, w') => (Rejected e, w')
    | (Pending, w') => (Pending, w')
    end.

(** [try { const x = await m; return k x; } catch (error) { return h error; }]
    where [k x] is a promise handed back without [await]: the [catch] sees
    a rejection of [m] only, a rejection of [k x] goes to the caller. *)
Definition try_await {A B} (m : Async A) (k : A -> Async B) (h : error -> Async B) : Async B :=
  fun w =>
    match m w with
    | (Resolved a, w') => k a w'
    | (Rejected e, w') => h e w'
    | (Pending, w') => (Pending, w')
    end.

(** [try { return await m; } catch (error) { return h error; }] *)
Definition try_catch {A} (m : Async A) (h : error -> Async A) : Async A :=
  try_await m Promise_resolve h.

Notation "x <- m ;; k" := (await m (fun x => k))
  (at level 100, m at next level, right associativity).

(** ** Requests, events and promise executors *)

(** Events the browser dispatches for a transaction that carries one
    request.  An error event of the request bubbles to the transaction. *)
Inductive event (R : Type) :=
| RequestSuccess (result : R)
| RequestError (e : error)
| TransactionComplete
| TransactionAbort.
Arguments RequestSuccess {R} result.
Arguments RequestError {R} e.
Arguments TransactionComplete {R}.
Arguments TransactionAbort {R}.

(** The [resolve] and [reject] of a promise: the first call settles it. *)
Definition resolve {A} (a : A) (p : promise A) : promise A :=
  match p with Pending => Resolved a | _ => p end.

Definition reject {A} (e : error) (p : promise A) : promise A :=
  match p with Pending => Rejected e | _ => p end.

(** The promise after its handlers have seen the events, in order. *)
Definition settle {R A} (handlers : event R -> promise A -> promise A)
    (evs : list (event R)) : promise A :=
  fold_left (fun p ev => handlers ev p) evs Pending.

(** What the body of an executor gives: an exception thrown by an API call,
    or the events dispatched later. *)
Definition Backend (R : Type) : Type := World -> (error + list (event R)) * World.

(** [new Promise((resolve, reject) => { ... })]: a throw inside the executor
    rejects the promise. *)
Definition new_Promise {R A} (body : Backend R)
    (handlers : event R -> promise A -> promise A) : Async A :=
  fun w =>
    match body w with
    | (inl e, w') => (Rejected e, w')
    | (inr evs, w') => (settle handlers evs, w')
    end.

Definition NotFoundError : error := DOMException "NotFoundError".
Definition DataError : error := DOMException "DataError".

(** [db.transaction(c, m).objectStore(c)]: throws when the store is missing. *)
Definition db_transaction (c : string) (m : mode) (w : World) : (error + objectStore) * World :=
  let w' := log (OpTransaction c m) w in
  match database w !! c with
  | None => (inl NotFoundError, w')
  | Some s => (inr s, w')
  end.

(** A read-write transaction with one [store.put(value)]. *)
Definition tx_put (c : string) (v : record) : Backend unit :=
  fun w =>
    match db_transaction c ReadWrite w with
    | (inl e, w1) => (inl e, w1)
    | (inr s, w1) =>
        if negb (valid_key (rec_id v)) then (inl DataError, w1)
        else
          let w2 := log (OpPut c v) w1 in
          match faults w (OpPut c v) with
          | Some e => (inr [RequestError e; TransactionAbort], w2)
          | None =>
              match faults w (OpCommit c) with
              | Some _ => (inr [RequestSuccess tt; TransactionAbort], w2)
              | None =>
                  (inr [RequestSuccess tt; TransactionComplete],
                   set_database
                     (<[c := {| records := store_put v (records s);
                                indexNames := indexNames s |}]> (database w2)) w2)
              end
          end
    end.

(** A read-write transaction with one [store.delete(id)]. *)
Definition tx_delete (c : string) (k : idval) : Backend unit :=
  fun w =>
    match db_transaction c ReadWrite w with
    | (inl e, w1) => (inl e, w1)
    | (inr s, w1) =>
        if negb (valid_key k) then (inl DataError, w1)
        else
          let w2 := log (OpDelete c k) w1 in
          match faults w (OpDelete c k) with
          | Some e => (inr [RequestError e; TransactionAbort], w2)
          | None =>
              match faults w (OpCommit c) with
              | Some _ => (inr [RequestSuccess tt; TransactionAbort], w2)
              | None =>
                  (inr [RequestSuccess tt; TransactionComplete],
                   set_database
                     (<[c := {| records := store_delete k (records s);
                                indexNames := indexNames s |}]> (database w2)) w2)
              end
          end
    end.

(** [request.result] of [store.get(k)]: the record, or [undefined]. *)
Definition lookup_result (k : idval) (s : objectStore) : jsval :=
  match store_get k (records s) with
  | Some r => Obj r
  | None => Undefined
  end.

(** A read-only transaction with one [store.get(id)]. *)
Definition tx_get (c : string) (k : idval) : Backend jsval :=
  fun w =>
    match db_transaction c ReadOnly w with
    | (inl e, w1) => (inl e, w1)
    | (inr s, w1) =>
        if negb (valid_key k) then (inl DataError, w1)
        else
          let w2 := log (OpGet c k) w1 in
          match faults w (OpGet c k) with
          | Some e => (inr [RequestError e; TransactionAbort], w2)
          | None => (inr [RequestSuccess (lookup_result k s); TransactionComplete], w2)
          end
    end.

(** A read-only transaction with one [store.count()]. *)
Definition tx_count (c : string) : Backend Z :=
  fun w =>
    match db_transaction c ReadOnly w with
    | (inl e, w1) => (inl e, w1)
    | (inr s, w1) =>
        let w2 := log (OpCount c) w1 in
        match faults w (OpCount c) with
        | Some e => (inr [RequestError e; TransactionAbort], w2)
        | None => (inr [RequestSuccess (Z.of_nat (length (records s))); TransactionComplete], w2)
        end
    end.

(** ** The accessor *)

(** [getDatabase]: the memoized connection, opened on first use. *)
Definition getDatabase : Async unit :=
  fun w =>
    if dbConnection w then (Resolved tt, w)
    else
      let w' := log OpOpen w in
      match faults w OpOpen with
      | Some e => (Rejected e, w')
      | None => (Resolved tt, set_dbConnection true w')
      end.

(** Handlers of [set]: [transaction.oncomplete] resolves, an error event
    reaches [transaction.onerror] and rejects, [request.onsuccess] only
    logs, and nothing listens for an abort. *)
Definition set_handlers (ev : event unit) (p : promise bool) : promise bool :=
  match ev with
  | TransactionComplete => resolve true p
  | RequestError e => reject e p
  | RequestSuccess _ => p
  | TransactionAbort => p
  end.

Definition set (collectionName : string) (v : jsval) : Async bool :=
  if negb (truthy v) || negb (str_truthy collectionName) then
    Promise_reject (ErrString "Missing value or collection name")
  else if negb (id_truthy (value_id v)) then
    Promise_reject (ErrString "Value must have an id property")
  else
    match v with
    | Obj r =>
        try_await getDatabase
          (fun _ => new_Promise (tx_put collectionName r) set_handlers)
          (fun e => Promise_reject e)
    | _ => Promise_reject (ErrString "Missing value or collection name")
    end.

Definition cacheKey (collectionName : string) (i : idval) : string :=
  collectionName +:+ ":" +:+ id_to_string i.

(** [cachedItem && cachedItem.expires > Date.now()] *)
Definition cache_hit (w : World) (key : string) : option record :=
  match memoryCache w !! key with
  | Some item => if clock w <? expires item then Some (value item) else None
  | None => None
  end.

(** [memoryCache.set(cacheKey, { value, expires: Date.now() + CACHE_TTL })] *)
Definition cache_store (key : string) (r : record) (w : World) : World :=
  set_memoryCache
    (<[key := {| value := r; expires := clock w + CACHE_TTL |}]> (memoryCache w)) w.

Definition get_handlers (ev : event jsval) (p : promise jsval) : promise jsval :=
  match ev with
  | RequestSuccess result => resolve result p
  | RequestError e => reject e p
  | _ => p
  end.

Definition get (collectionName : string) (i : idval) : Async jsval :=
  if negb (str_truthy collectionName) || match i with IdUndefined => true | _ => false end then
    Promise_reject (ErrString "Missing collection name or id")
  else
    fun w =>
      match cache_hit w (cacheKey collectionName i) with
      | Some r => (Resolved (Obj r), w)
      | None =>
          try_catch
            (_ <- getDatabase ;;
             result <- new_Promise (tx_get collectionName i) get_handlers ;;
             fun w' =>
               match result with
               | Obj r => (Resolved result, cache_store (cacheKey collectionName i) r w')
               | _ => (Resolved result, w')
               end)
            (fun e => Promise_reject e) w
      end.

(** *** Cursors *)

(** What an [onsuccess] handler of a cursor request ends with. *)
Inductive cursorAction (A : Type) :=
| Advance (count : Z)   (* cursor.advance(count); return *)
| Continue              (* cursor.continue() *)
| Resolve (a : A).      (* resolve(a) *)
Arguments Advance {A} count.
Arguments Continue {A}.
Arguments Resolve {A} a.

(** The browser calling [onsuccess] again and again: [cursor] holds the
    record under the cursor and those after it, [[]] is the null cursor.
    A handler that neither moves the cursor nor resolves leaves the promise
    pending, which is what running out of [fuel] stands for. *)
Fixpoint iterate {St A} (onsuccess : option record -> St -> St * cursorAction A)
    (fuel : nat) (cursor : list record) (st : St) : promise A :=
  match fuel with
  | O => Pending
  | S fuel' =>
      match onsuccess (head cursor) st with
      | (st', Advance count) => iterate onsuccess fuel' (drop (Z.to_nat count) cursor) st'
      | (st', Continue) => iterate onsuccess fuel' (drop 1 cursor) st'
      | (_, Resolve a) => Resolved a
      end
  end.

(** An executor that opens a cursor: an exception of [db.transaction], the
    error event of the cursor request, or the records walked over. *)
Definition CursorSource : Type := World -> (error + (error + list record)) * World.

Definition cursor_Promise {St A} (source : CursorSource)
    (onsuccess : option record -> St -> St * cursorAction A) (init : St) : Async A :=
  fun w =>
    match source w with
    | (inl e, w') => (Rejected e, w')
    | (inr (inl e), w') => (Rejected e, w')
    | (inr (inr l), w') => (iterate onsuccess (S (length l)) l init, w')
    end.

(** [store.openCursor()] in a read-only transaction: key order, forward. *)
Definition openCursor (c : string) : CursorSource :=
  fun w =>
    match db_transaction c ReadOnly w with
    | (inl e, w1) => (inl e, w1)
    | (inr s, w1) =>
        let w2 := log (OpOpenCursor c) w1 in
        match faults w (OpOpenCursor c) with
        | Some e => (inr (inl e), w2)
        | None => (inr (inr (records s)), w2)
        end
    end.

(** State of the handler of [getRange]: [items] and [skipped]. *)
Definition getRange_onsuccess (skip take : Z) (cursor : option record)
    (st : list record * bool) : (list record * bool) * cursorAction (list record) :=
  let '(items, skipped) := st in
  match cursor with
  | None => (st, Resolve items)
  | Some v =>
      if negb skipped && (0 <? skip) then ((items, true), Advance skip)
      else if Z.of_nat (length items) <? take then ((items ++ [v], skipped), Continue)
      else (st, Resolve items)
  end.

Definition getRange (collectionName : string) (skip take : Z) : Async (list record) :=
  try_await getDatabase
    (fun _ => cursor_Promise (openCursor collectionName) (getRange_onsuccess skip take) ([], false))
    (fun e => Promise_reject e).

(** [transaction.onerror] and [countRequest.onerror] reject,
    [countRequest.onsuccess] resolves with the count. *)
Definition count_handlers (ev : event Z) (p : promise Z) : promise Z :=
  match ev with
  | RequestSuccess result => resolve result p
  | RequestError e => reject e p
  | _ => p
  end.

Definition count (collectionName : string) : Async Z :=
  try_await getDatabase
    (fun _ => new_Promise (tx_count collectionName) count_handlers)
    (fun _ => Promise_resolve 0).

(** [new Date(b.UploadDate) - new Date(a.UploadDate)]; [None] is NaN. *)
Definition by_date_desc (a b : record) : option Z :=
  match rec_UploadDate b, rec_UploadDate a with
  | Some db, Some da => Some (db - da)
  | _, _ => None
  end.

(** [Array.prototype.sort] as a stable insertion sort; a comparator result
    that is not positive (NaN too) leaves the two elements in order. *)
Fixpoint sort_insert (cmp : record -> record -> option Z) (x : record)
    (l : list record) : list record :=
  match l with
  | [] => [x]
  | y :: rest =>
      match cmp y x with
      | Some z => if 0 <? z then x :: y :: rest else y :: sort_insert cmp x rest
      | None => y :: sort_insert cmp x rest
      end
  end.

Definition Array_sort (cmp : record -> record -> option Z) (l : list record) : list record :=
  fold_left (fun acc x => sort_insert cmp x acc) l [].

(** [items.slice(0, end)] *)
Definition slice0 (e : Z) (l : list record) : list record :=
  if 0 <=? e then take (Z.to_nat e) l
  else take (Z.to_nat (Z.of_nat (length l) + e)) l.

Definition has_index (name : string) (s : objectStore) : bool :=
  existsb (String.eqb name) (indexNames s).

(** The cursor of [getAllPagedByDate]: the [UploadDate] index backwards when
    [collection.index] does not throw, the store itself otherwise.  The
    boolean tells which. *)
Definition openCursorByDate (c : string) : World -> (error + (bool * (error + list record))) * World :=
  fun w =>
    match db_transaction c ReadOnly w with
    | (inl e, w1) => (inl e, w1)
    | (inr s, w1) =>
        if has_index "UploadDate" s then
          let w2 := log (OpIndexCursor c "UploadDate") w1 in
          match faults w (OpIndexCursor c "UploadDate") with
          | Some e => (inr (true, inl e), w2)
          | None => (inr (true, inr (index_prev (records s))), w2)
          end
        else
          let w2 := log (OpOpenCursor c) w1 in
          match faults w (OpOpenCursor c) with
          | Some e => (inr (false, inl e), w2)
          | None => (inr (false, inr (records s)), w2)
          end
    end.

Definition getAllPagedByDate_onsuccess (index : bool) (skip take : Z) (cursor : option record)
    (st : list record * bool) : (list record * bool) * cursorAction (list record) :=
  let '(items, skipped) := st in
  match cursor with
  | Some v =>
      if negb skipped && (0 <? skip) then ((items, true), Advance skip)
      else
        let items' := items ++ [v] in
        if take <=? Z.of_nat (length items') then ((items', skipped), Resolve items')
        else ((items', skipped), Continue)
  | None =>
      let items' := if index then items else Array_sort by_date_desc items in
      ((items', skipped), Resolve (slice0 take items'))
  end.

Definition getAllPagedByDate (collectionName : string) (skip take : Z) : Async (list record) :=
  try_await getDatabase
    (fun _ w =>
       match openCursorByDate collectionName w with
       | (inl e, w') => (Rejected e, w')
       | (inr (index, src), w') =>
           cursor_Promise (fun w0 => (inr src, w0))
             (getAllPagedByDate_onsuccess index skip take) ([], false) w'
       end)
    (fun e => Promise_reject e).

(** [request.onsuccess] resolves [true], [request.onerror] rejects. *)
Definition deleteRecord_handlers (ev : event unit) (p : promise bool) : promise bool :=
  match ev with
  | RequestSuccess _ => resolve true p
  | RequestError e => reject e p
  | _ => p
  end.

Definition deleteRecord (collectionName : string) (i : idval) : Async bool :=
  try_await getDatabase
    (fun _ => new_Promise (tx_delete collectionName i) deleteRecord_handlers)
    (fun e => Promise_reject e).

(** [for (const key of memoryCache.keys()) if (key.startsWith(prefix))
    memoryCache.delete(key)] *)
Definition delete_prefixed (pre : string) (keys : list string)
    (m : gmap string cacheEntry) : gmap string cacheEntry :=
  fold_left (fun acc key => if String.prefix pre key then delete key acc else acc) keys m.

(** [clearCache(collectionName = null)]; [None] is a call without argument. *)
Definition clearCache (collectionName : option string) (w : World) : World :=
  match collectionName with
  | Some c =>
      if str_truthy c then
        set_memoryCache
          (delete_prefixed (c +:+ ":") (map_to_list (memoryCache w)).*1 (memoryCache w)) w
      else set_memoryCache ∅ w
  | None => set_memoryCache ∅ w
  end.

(** *** getBulk *)

(** The [ids] argument: [Array.isArray(ids)] or not. *)
Inductive idsArg :=
| NotArray
| IdsArray (ids : list idval).

(** The loop over [ids] that fills [results] and [missingIds]. *)
Fixpoint check_cache (collectionName : string) (ids : list idval) (w : World)
    : list jsval * list idval :=
  match ids with
  | [] => ([], [])
  | i :: rest =>
      let '(results, missingIds) := check_cache collectionName rest w in
      match cache_hit w (cacheKey collectionName i) with
      | Some r => (Obj r :: results, missingIds)
      | None => (results, i :: missingIds)
      end
  end.

(** One of the promises given to [Promise.all]: [store.get(id)] on the
    shared transaction.  [aborted] tells whether an earlier request of the
    transaction failed: its error event was not cancelled, so the
    transaction aborted and every later request fails with [AbortError].
    [onsuccess] caches a found record and resolves with [request.result],
    [onerror] resolves with [null]. *)
Definition bulk_fetch (c : string) (s : objectStore) (i : idval) (aborted : bool) (w : World)
    : promise jsval * bool * World :=
  if negb (valid_key i) then (Rejected DataError, aborted, w)
  else
    let w1 := log (OpGet c i) w in
    if aborted then (Resolved Null, true, w1)
    else
      match faults w (OpGet c i) with
      | Some _ => (Resolved Null, true, w1)
      | None =>
          match lookup_result i s with
          | Obj r => (Resolved (Obj r), false, cache_store (cacheKey c i) r w1)
          | v => (Resolved v, false, w1)
          end
      end.

Fixpoint bulk_fetch_all (c : string) (s : objectStore) (ids : list idval) (aborted : bool)
    (w : World) : list (promise jsval) * World :=
  match ids with
  | [] => ([], w)
  | i :: rest =>
      let '(p, aborted', w1) := bulk_fetch c s i aborted w in
      let '(ps, w2) := bulk_fetch_all c s rest aborted' w1 in
      (p :: ps, w2)
  end.

(** [Promise.all]: the first rejection wins, else all the values. *)
Fixpoint Promise_all {A} (ps : list (promise A)) : promise (list A) :=
  match ps with
  | [] => Resolved []
  | p :: rest =>
      match p, Promise_all rest with
      | Rejected e, _ => Rejected e
      | _, Rejected e => Rejected e
      | Pending, _ => Pending
      | _, Pending => Pending
      | Resolved a, Resolved l => Resolved (a :: l)
      end
  end.

Definition not_null (v : jsval) : bool :=
  match v with Null => false | _ => true end.

(** The [try] block of [getBulk]. *)
Definition getBulk_try (collectionName : string) (ids : list idval) : Async (list jsval) :=
  _ <- getDatabase ;;
  fun w =>
    let '(results, missingIds) := check_cache collectionName ids w in
    match missingIds with
    | [] => (Resolved results, w)
    | _ =>
        match db_transaction collectionName ReadOnly w with
        | (inl e, w1) => (Rejected e, w1)
        | (inr s, w1) =>
            let '(ps, w2) := bulk_fetch_all collectionName s missingIds false w1 in
            match Promise_all ps with
            | Resolved dbResults =>
                (Resolved (results ++ List.filter not_null dbResults), w2)
            | Rejected e => (Rejected e, w2)
            | Pending => (Pending, w2)
            end
        end
    end.

Definition getBulk (collectionName : string) (ids : idsArg) : Async (list jsval) :=
  match ids with
  | NotArray => Promise_resolve []
  | IdsArray [] => Promise_resolve []
  | IdsArray ids => try_catch (getBulk_try collectionName ids) (fun _ => Promise_resolve [])
  end.

(** ** Predicates and sample worlds used by the statements *)

(** The cache, the clock and the fault plan are the same in both worlds. *)
Definition same_cache (w w' : World) : Prop :=
  memoryCache w' = memoryCache w ∧ clock w' = clock w ∧ faults w' = faults w.

(** A world in which the connection is there or can be opened. *)
Definition connectable (w : World) : Prop :=
  dbConnection w = true ∨ faults w OpOpen = None.

(** The property as the specification words it: once [set] has resolved, a
    [get] of the same id gives the record written. *)
Definition read_after_write (w : World) (c : string) (r : record) : Prop :=
  (set c (Obj r) w).1 = Resolved true →
  (get c (rec_id r) (set c (Obj r) w).2).1 = Resolved (Obj r).

Definition photo (i : string) (d : Z) (name : string) : record :=
  {| rec_id := IdStr i; rec_UploadDate := Some d; rec_fields := [("name", name)] |}.

Definition no_faults : op → option error := fun _ => None.

(** A database with the [Mosaic] store (no index) holding [l]. *)
Definition mosaic_world (l : list record) : World :=
  {| database := {[ "Mosaic" := {| records := l; indexNames := [] |} ]};
     memoryCache := ∅; dbConnection := false; clock := 1000;
     faults := no_faults; trace := [] |}.

(** The world after the old version of record [a] has been read once. *)
Definition stale_world : World :=
  (get "Mosaic" (IdStr "a") (mosaic_world [photo "a" 1 "old"])).2.

(** The [Mosaic] world in which the browser fails every [store.count()]. *)
Definition count_fault_world : World :=
  {| database := {[ "Mosaic" := {| records := [photo "a" 1 "old"]; indexNames := [] |} ]};
     memoryCache := ∅; dbConnection := false; clock := 1000;
     faults := fun o => match o with
                        | OpCount _ => Some (DOMException "UnknownError")
                        | _ => None
                        end;
     trace := [] |}.

(** The [Mosaic] world in which the database cannot be opened. *)
Definition closed_world : World :=
  {| database := {[ "Mosaic" := {| records := [photo "a" 1 "old"]; indexNames := [] |} ]};
     memoryCache := ∅; dbConnection := false; clock := 1000;
     faults := fun o => match o with
                        | OpOpen => Some (DOMException "UnknownError")
                        | _ => None
                        end;
     trace := [] |}.

(** The [Mosaic] world in which writes are acknowledged and the commit of
    the transaction then fails. *)
Definition commit_fault_world : World :=
  {| database := {[ "Mosaic" := {| records := [photo "a" 1 "old"]; indexNames := [] |} ]};
     memoryCache := ∅; dbConnection := false; clock := 1000;
     faults := fun o => match o with
                        | OpCommit _ => Some (DOMException "QuotaExceededError")
                        | _ => None
                        end;
     trace := [] |}.

(** The property as the specification words it: [count] does not reject. *)
Definition count_never_rejects (w : World) (c : string) : Prop :=
  ∀ e, (count c w).1 ≠ Rejected e.

Definition is_transaction (o : op) : bool :=
  match o with OpTransaction _ _ => true | _ => false end.

(** The calls a run from [w] to [w'] added to the trace. *)
Definition new_calls (w w' : World) : list op :=
  drop (length (trace w)) (trace w').

(** Non-increasing [UploadDate] along a list of records. *)
Fixpoint newest_first (l : list record) : Prop :=
  match l with
  | x :: (y :: _) as rest =>
      match rec_UploadDate x, rec_UploadDate y with
      | Some dx, Some dy => dy ≤ dx
      | _, _ => False
      end ∧ newest_first rest
  | _ => True
  end.

(** What [getAllPagedByDate] does to [items] when the cursor has run out. *)
Definition sorted_unless (index : bool) (items : list record) : list record :=
  if index then items else Array_sort by_date_desc items.

(** A name without [":"], as the names of [REQUIRED_STORES] are. *)
Fixpoint no_colon (s : string) : bool :=
  match s with
  | EmptyString => true
  | String a s' => negb (Ascii.eqb a ":"%char) && no_colon s'
  end.

(** The property as the specification words it: clearing one collection
    leaves the entries of every other collection in place. *)
Definition clearCache_spares_others (w : World) (c : string) : Prop :=
  ∀ c' i, c' ≠ c →
    memoryCache (clearCache (Some c) w) !! cacheKey c' i = memoryCache w !! cacheKey c' i.

(** A database with a store named [a:b], after its record [x] has been
    read once. *)
Definition colon_world : World :=
  (get "a:b" (IdStr "x")
     {| database := {[ "a:b" := {| records := [photo "x" 1 "old"]; indexNames := [] |} ]};
        memoryCache := ∅; dbConnection := false; clock := 1000;
        faults := no_faults; trace := [] |}).2.

(** The world after the records [a] of [Mosaic] and [t] of [MosaicTemplate]
    have been read once. *)
Definition two_collections_world : World :=
  (get "MosaicTemplate" (IdStr "t")
     (get "Mosaic" (IdStr "a")
        {| database := {[ "Mosaic" := {| records := [photo "a" 1 "old"]; indexNames := [] |};
                          "MosaicTemplate" := {| records := [photo "t" 2 "tpl"]; indexNames := [] |} ]};
           memoryCache := ∅; dbConnection := false; clock := 1000;
           faults := no_faults; trace := [] |}).2).2.

Global Instance idval_eq_dec : EqDecision idval.
Proof. solve_decision. Defined.


(** A record that the [UploadDate] index lists. *)
Definition dated (x : record) : Prop := is_Some (rec_UploadDate x).

(** ** The rest of the accessor *)

(** [closeDatabase]: closes the connection and forgets it. *)
Definition closeDatabase (w : World) : World :=
  if dbConnection w then set_dbConnection false w else w.

(** *** Blob helpers on the [IndexedDbFile] store

    A blob record is [{ id, blob, mimeType }].  The field [blob], where a
    record has it, is a [Blob], given here by its bytes; its type tag is
    the [mimeType] written next to it. *)

Fixpoint field (name : string) (fields : list (string * string)) : option string :=
  match fields with
  | [] => None
  | (n, v) :: rest => if String.eqb n name then Some v else field name rest
  end.

(** [{ id, blob: new Blob([uint8Array], { type: mimeType }), mimeType }] *)
Definition blob_record (i : idval) (bytes mimeType : string) : record :=
  {| rec_id := i; rec_UploadDate := None;
     rec_fields := [("blob", bytes); ("mimeType", mimeType)] |}.

(** [req.onsuccess] resolves [true], [req.onerror] rejects; nothing listens
    on the transaction. *)
Definition setImageBlob_handlers (ev : event unit) (p : promise bool) : promise bool :=
  match ev with
  | RequestSuccess _ => resolve true p
  | RequestError e => reject e p
  | _ => p
  end.

(** [setImageBlob(id, uint8Array, mimeType = "image/webp")]; [None] is an
    argument left out.  The [Error] thrown on a missing argument is given by
    its message. *)
Definition setImageBlob (i : idval) (uint8Array : option string) (mimeType : option string)
    : Async bool :=
  match uint8Array with
  | Some bytes =>
      if negb (id_truthy i) then Promise_reject (ErrString "setImageBlob requires id and data")
      else
        _ <- getDatabase ;;
        new_Promise
          (tx_put "IndexedDbFile" (blob_record i bytes (default "image/webp" mimeType)))
          setImageBlob_handlers
  | None => Promise_reject (ErrString "setImageBlob requires id and data")
  end.

(** [if (!rec || !rec.blob) resolve(null)], else the bytes of the blob. *)
Definition getImageBytes_handlers (ev : event jsval) (p : promise (option string))
    : promise (option string) :=
  match ev with
  | RequestSuccess rec =>
      resolve (match rec with
               | Obj r => field "blob" (rec_fields r)
               | _ => None
               end) p
  | RequestError e => reject e p
  | _ => p
  end.

Definition getImageBytes (i : idval) : Async (option string) :=
  _ <- getDatabase ;;
  new_Promise (tx_get "IndexedDbFile" i) getImageBytes_handlers.

(** [{ id: destId, blob: rec.blob, mimeType: rec.mimeType }] *)
Definition copy_record (destId : idval) (rec : record) : record :=
  {| rec_id := destId; rec_UploadDate := None;
     rec_fields :=
       match field "blob" (rec_fields rec) with
       | Some b => [("blob", b)]
       | None => []
       end ++
       match field "mimeType" (rec_fields rec) with
       | Some m => [("mimeType", m)]
       | None => []
       end |}.

(** [copyIndexedDbFile]: one read-write transaction, a [get] of the source
    and, from its [onsuccess], a [put] of the copy.  A [put] that throws
    does so inside the handler: the transaction aborts and nobody settles
    the promise. *)
Definition copyIndexedDbFile (srcId destId : idval) : Async bool :=
  _ <- getDatabase ;;
  fun w =>
    match db_transaction "IndexedDbFile" ReadWrite w with
    | (inl e, w1) => (Rejected e, w1)
    | (inr s, w1) =>
        if negb (valid_key srcId) then (Rejected DataError, w1)
        else
          let w2 := log (OpGet "IndexedDbFile" srcId) w1 in
          match faults w (OpGet "IndexedDbFile" srcId) with
          | Some e => (Rejected e, w2)
          | None =>
              match store_get srcId (records s) with
              | None => (Resolved false, w2)
              | Some rec =>
                  let v := copy_record destId rec in
                  if negb (valid_key destId) then (Pending, w2)
                  else
                    let w3 := log (OpPut "IndexedDbFile" v) w2 in
                    match faults w (OpPut "IndexedDbFile" v) with
                    | Some e => (Rejected e, w3)
                    | None =>
                        match faults w (OpCommit "IndexedDbFile") with
                        | Some _ => (Resolved true, w3)
                        | None =>
                            (Resolved true,
                             set_database
                               (<["IndexedDbFile" :=
                                    {| records := store_put v (records s);
                                       indexNames := indexNames s |}]> (database w3)) w3)
                        end
                    end
              end
          end
    end.

(** ** Predicates and sample worlds for the rest *)

(** Every stored record sits under a key IndexedDB accepts. *)
Definition keys_valid (l : list record) : Prop :=
  Forall (fun x => valid_key (rec_id x) = true) l.

(** The database and the fault plan are the same in both worlds, and the
    second is connected when the first can connect. *)
Definition same_database (w w' : World) : Prop :=
  database w' = database w ∧ faults w' = faults w ∧ (connectable w → connectable w').

(** A world with the [IndexedDbFile] store holding [l]. *)
Definition file_world (l : list record) : World :=
  {| database := {[ "IndexedDbFile" := {| records := l; indexNames := [] |} ]};
     memoryCache := ∅; dbConnection := false; clock := 1000;
     faults := no_faults; trace := [] |}.


Definition is_open (o : op) : bool :=
  match o with OpOpen => true | _ => false end.

(** How often [indexedDB.open] has been called. *)
Definition opens (w : World) : nat := length (List.filter is_open (trace w)).

(** The second world still has the connection, and [indexedDB.open] was
    not called on the way to it. *)
Definition kept (w w' : World) : Prop :=
  dbConnection w' = true ∧ opens w' = opens w.

(** A call that, started with the connection there, keeps it and does not
    open the database. *)
Definition keeps_connection {X} (f : World → X * World) : Prop :=
  ∀ w, dbConnection w = true → kept w (f w).2.

(** The records the cursor of [getAllPagedByDate] walks over. *)
Definition cursor_records (s : objectStore) : list record :=
  if has_index "UploadDate" s then index_prev (records s) else records s.

(** The cursor request [getAllPagedByDate] issues. *)
Definition cursor_call (c : string) (s : objectStore) : op :=
  if has_index "UploadDate" s then OpIndexCursor c "UploadDate" else OpOpenCursor c.

(** ** Calls the trace of [World] has no name for

    [getAll], [hasRecord] and [initialize] issue requests that [op] does not
    list.  They run in a world that carries, next to the [World] above, the
    version of the database and a fault plan and trace for those
    requests. *)

Inductive opx :=
| OpxGetAll (c : string)              (* store.getAll() *)
| OpxGetKey (c : string) (k : idval)  (* store.getKey(id) *)
| OpxOpenVersion (v : nat).           (* indexedDB.open(DATABASE_NAME, v) *)

Record WorldX := {
  base : World;
  version : nat;                  (* db.version; 0: the database does not exist yet *)
  faultsX : opx → option error;
  traceX : list opx
}.

Definition with_base (w : World) (wx : WorldX) : WorldX :=
  {| base := w; version := version wx; faultsX := faultsX wx; traceX := traceX wx |}.

Definition logX (o : opx) (wx : WorldX) : WorldX :=
  {| base := base wx; version := version wx; faultsX := faultsX wx;
     traceX := traceX wx ++ [o] |}.

Definition AsyncX (A : Type) : Type := WorldX → promise A * WorldX.

(** A call of the first part, run in the larger world. *)
Definition liftX {A} (m : Async A) : AsyncX A :=
  fun wx => let '(p, w') := m (base wx) in (p, with_base w' wx).

(** [getAll]: [request.onsuccess] resolves with all the records, in key
    order; [request.onerror] rejects. *)
Definition getAll (collectionName : string) : AsyncX (list record) :=
  fun wx =>
    match getDatabase (base wx) with
    | (Resolved _, w1) =>
        match db_transaction collectionName ReadOnly w1 with
        | (inl e, w2) => (Rejected e, with_base w2 wx)
        | (inr s, w2) =>
            let wx' := logX (OpxGetAll collectionName) (with_base w2 wx) in
            match faultsX wx (OpxGetAll collectionName) with
            | Some e => (Rejected e, wx')
            | None => (Resolved (records s), wx')
            end
        end
    | (Rejected e, w1) => (Rejected e, with_base w1 wx)
    | (Pending, w1) => (Pending, with_base w1 wx)
    end.

(** [hasRecord]: [req.result !== undefined && req.result !== null] for the
    key [store.getKey(id)] finds. *)
Definition hasRecord (collectionName : string) (i : idval) : AsyncX bool :=
  fun wx =>
    match getDatabase (base wx) with
    | (Resolved _, w1) =>
        match db_transaction collectionName ReadOnly w1 with
        | (inl e, w2) => (Rejected e, with_base w2 wx)
        | (inr s, w2) =>
            if negb (valid_key i) then (Rejected DataError, with_base w2 wx)
            else
              let wx' := logX (OpxGetKey collectionName i) (with_base w2 wx) in
              match faultsX wx (OpxGetKey collectionName i) with
              | Some e => (Rejected e, wx')
              | None =>
                  (Resolved (match store_get i (records s) with
                             | Some _ => true
                             | None => false
                             end), wx')
              end
        end
    | (Rejected e, w1) => (Rejected e, with_base w1 wx)
    | (Pending, w1) => (Pending, with_base w1 wx)
    end.

(** *** initialize *)

Definition REQUIRED_STORES : list string :=
  ["Mosaic"; "MosaicTemplate"; "IndexedDbFile"; "ExternalPiece"; "ImageData"].

Definition VersionError : error := DOMException "VersionError".

(** [db.objectStoreNames.contains(name)] *)
Definition contains (d : gmap string objectStore) (name : string) : bool :=
  match d !! name with Some _ => true | None => false end.

(** [for (const storeName of names) if (!db.objectStoreNames.contains(storeName))
    db.createObjectStore(storeName, { keyPath: "id" })] *)
Definition create_stores (names : list string) (d : gmap string objectStore)
    : gmap string objectStore :=
  fold_left (fun d name =>
               if contains d name then d
               else <[name := {| records := []; indexNames := [] |}]> d) names d.

(** The [try] block that follows in [onupgradeneeded]: the [UploadDate]
    index on [ImageData], created when the store is there and has none (a
    [createIndex] that throws because the index exists is ignored). *)
Definition ensure_index (d : gmap string objectStore) : gmap string objectStore :=
  match d !! "ImageData" with
  | Some s =>
      if has_index "UploadDate" s then d
      else <["ImageData" := {| records := records s;
                               indexNames := indexNames s ++ ["UploadDate"] |}]> d
  | None => d
  end.

(** The world after an open request with a version has succeeded: the
    database as the upgrade left it, at that version, with the connection
    kept in [dbConnection]. *)
Definition opened (d : gmap string objectStore) (v : nat) (wx : WorldX) : WorldX :=
  {| base := set_dbConnection true (set_database d (base wx));
     version := v; faultsX := faultsX wx; traceX := traceX wx |}.

(** [initialize].  Opening without a version creates the database, empty and
    at version 1, when it does not exist.  An open that has to upgrade waits
    for every other connection to close; the connection in [dbConnection]
    is not closed and nothing listens for [blocked], so with that
    connection there the promise stays pending. *)
Definition initialize : AsyncX bool :=
  fun wx =>
    let w := base wx in
    let w1 := log OpOpen w in
    match faults w OpOpen with
    | None =>
        let currentVersion := Nat.max 1 (version wx) in
        let missingStores :=
          List.filter (fun store => negb (contains (database w) store)) REQUIRED_STORES in
        match missingStores with
        | [] =>
            match getDatabase w1 with
            | (Resolved _, w2) =>
                (Resolved true,
                 {| base := w2; version := currentVersion;
                    faultsX := faultsX wx; traceX := traceX wx |})
            | (_, w2) =>
                (Pending,
                 {| base := w2; version := currentVersion;
                    faultsX := faultsX wx; traceX := traceX wx |})
            end
        | _ =>
            let wx1 :=
              logX (OpxOpenVersion (S currentVersion))
                {| base := w1; version := currentVersion;
                   faultsX := faultsX wx; traceX := traceX wx |} in
            match faultsX wx (OpxOpenVersion (S currentVersion)) with
            | Some e => (Rejected e, wx1)
            | None =>
                if dbConnection w then (Pending, wx1)
                else
                  (Resolved true,
                   opened (ensure_index (create_stores missingStores (database w)))
                     (S currentVersion) wx1)
            end
        end
    | Some _ =>
        let wx1 := logX (OpxOpenVersion 1) (with_base w1 wx) in
        match faultsX wx (OpxOpenVersion 1) with
        | Some e => (Rejected e, wx1)
        | None =>
            match version wx with
            | O =>
                if dbConnection w then (Pending, wx1)
                else
                  (Resolved true,
                   opened (ensure_index (create_stores REQUIRED_STORES (database w))) 1 wx1)
            | S O => (Resolved true, opened (database w) 1 wx1)
            | _ => (Rejected VersionError, wx1)
            end
        end
    end.

(** The larger world around [w]: database at version [v], no faults. *)
Definition around (w : World) (v : nat) : WorldX :=
  {| base := w; version := v; faultsX := fun _ => None; traceX := [] |}.

(** A fresh browser profile: no database yet. *)
Definition fresh_world : WorldX :=
  around {| database := ∅; memoryCache := ∅; dbConnection := false; clock := 1000;
            faults := no_faults; trace := [] |} 0.

(** A database at version 2 that has every required store, [ImageData]
    without its index. *)
Definition unindexed_world : WorldX :=
  around {| database :=
              list_to_map (map (fun name => (name, {| records := []; indexNames := [] |}))
                             REQUIRED_STORES);
            memoryCache := ∅; dbConnection := false; clock := 1000;
            faults := no_faults; trace := [] |} 2.

(** *** Ids whose text is written out in full

    [Number.MAX_SAFE_INTEGER], 2^53 - 1. *)
Definition MAX_SAFE_INTEGER : Z := 9007199254740991.

(** The ids [id_to_string] prints as JavaScript does: everything but a
    number beyond the safe integers. *)
Definition safe_integer_id (i : idval) : bool :=
  match i with
  | IdNum n => Z.abs n <=? MAX_SAFE_INTEGER
  | _ => true
  end.

(** * Properties *)

(** ** Keys and object stores *)

Lemma key_compare_refl k : key_compare k k = Eq.
Proof.
  destruct k; simpl; try reflexivity.
  - apply Z.compare_refl.
  - pose proof (String.compare_antisym s s) as H.
    by destruct (String.compare s s).
Qed.

Lemma key_eqb_refl k : key_eqb k k = true.
Proof. unfold key_eqb. by rewrite key_compare_refl. Qed.

Lemma store_get_put v l : store_get (rec_id v) (store_put v l) = Some v.
Proof.
  unfold store_get.
  induction l as [|x rest IH]; simpl.
  - by rewrite key_eqb_refl.
  - destruct (key_compare (rec_id v) (rec_id x)) eqn:E; simpl.
    + by rewrite key_eqb_refl.
    + by rewrite key_eqb_refl.
    + unfold key_eqb at 1. by rewrite E.
Qed.

(** ** What a call leaves alone *)


Lemma same_cache_refl w : same_cache w w.
Proof. by repeat split. Qed.

Lemma same_cache_trans w1 w2 w3 : same_cache w1 w2 → same_cache w2 w3 → same_cache w1 w3.
Proof. unfold same_cache. intros (-> & -> & ->) (-> & -> & ->). by repeat split. Qed.

Lemma same_cache_hit w w' key : same_cache w w' → cache_hit w' key = cache_hit w key.
Proof. intros (Hm & Hc & _). unfold cache_hit. by rewrite Hm, Hc. Qed.

Lemma getDatabase_same_cache w : same_cache w (getDatabase w).2.
Proof. unfold getDatabase. repeat case_match; by repeat split. Qed.

Lemma tx_put_same_cache c v w : same_cache w (tx_put c v w).2.
Proof. unfold tx_put, db_transaction. repeat case_match; simplify_eq; by repeat split. Qed.

Lemma tx_delete_same_cache c k w : same_cache w (tx_delete c k w).2.
Proof. unfold tx_delete, db_transaction. repeat case_match; simplify_eq; by repeat split. Qed.

Lemma new_Promise_snd {R A} (body : Backend R) (h : event R → promise A → promise A) w :
  (new_Promise body h w).2 = (body w).2.
Proof. unfold new_Promise. by repeat case_match. Qed.

Lemma set_same_cache c v w : same_cache w (set c v w).2.
Proof.
  unfold set, Promise_reject, try_await.
  repeat case_match; simplify_eq/=; try apply same_cache_refl.
  all: match goal with
       | H : getDatabase ?w = (_, ?w1) |- _ =>
           pose proof (getDatabase_same_cache w) as Hdb; rewrite H in Hdb; simpl in Hdb
       end; try done.
  eapply same_cache_trans; [exact Hdb|].
  rewrite new_Promise_snd. apply tx_put_same_cache.
Qed.

Lemma deleteRecord_same_cache c i w : same_cache w (deleteRecord c i w).2.
Proof.
  unfold deleteRecord, Promise_reject, try_await.
  pose proof (getDatabase_same_cache w) as Hdb.
  destruct (getDatabase w) as [[| |] w1]; simpl in *; try done.
  eapply same_cache_trans; [exact Hdb|].
  rewrite new_Promise_snd. apply tx_delete_same_cache.
Qed.

(** ** Reading through the cache *)

Lemma str_truthy_true c : str_truthy c = true ↔ c ≠ "".
Proof.
  unfold str_truthy. rewrite negb_true_iff. apply String.eqb_neq.
Qed.

Lemma get_hit w c i r :
  c ≠ "" → i ≠ IdUndefined →
  cache_hit w (cacheKey c i) = Some r →
  get c i w = (Resolved (Obj r), w).
Proof.
  intros Hc Hi Hhit. unfold get.
  apply str_truthy_true in Hc. rewrite Hc. simpl.
  destruct i; try done; by rewrite Hhit.
Qed.

Lemma cache_hit_tick w d key e :
  memoryCache w !! key = Some e → clock w + d < expires e →
  cache_hit (tick d w) key = Some (value e).
Proof.
  intros Hm Hlt. unfold cache_hit. simpl. rewrite Hm.
  by destruct (Z.ltb_spec (clock w + d) (expires e)); [|lia].
Qed.

Lemma cache_miss_tick w d key e :
  memoryCache w !! key = Some e → expires e ≤ clock w + d →
  cache_hit (tick d w) key = None.
Proof.
  intros Hm Hle. unfold cache_hit. simpl. rewrite Hm.
  by destruct (Z.ltb_spec (clock w + d) (expires e)); [lia|].
Qed.


Lemma getDatabase_connected w :
  dbConnection w = true → getDatabase w = (Resolved tt, w).
Proof. intros H. unfold getDatabase. by rewrite H. Qed.

Lemma getDatabase_resolved w u w' :
  getDatabase w = (Resolved u, w') →
  connectable w ∧ dbConnection w' = true ∧ database w' = database w ∧
  (w' = w ∨ w' = set_dbConnection true (log OpOpen w)).
Proof.
  unfold getDatabase, connectable. intros H.
  destruct (dbConnection w) eqn:Hc; simplify_eq.
  - auto.
  - destruct (faults w OpOpen) eqn:Hf; simplify_eq. simpl. auto.
Qed.

Lemma getDatabase_connectable w :
  connectable w → ∃ w', getDatabase w = (Resolved tt, w') ∧ dbConnection w' = true
    ∧ database w' = database w ∧ same_cache w w'.
Proof.
  intros Hc. pose proof (getDatabase_same_cache w) as Hs.
  unfold getDatabase in *. destruct (dbConnection w) eqn:Hd.
  - by exists w.
  - destruct Hc as [?|Hf]; [congruence|]. rewrite Hf in *. eauto.
Qed.

(** A miss that reads a record: what the world had to be, and what the
    call leaves behind. *)
Lemma get_miss_read w c i s :
  c ≠ "" → valid_key i = true →
  cache_hit w (cacheKey c i) = None →
  dbConnection w = true →
  database w !! c = Some s →
  faults w (OpGet c i) = None →
  get c i w =
    let w2 := log (OpGet c i) (log (OpTransaction c ReadOnly) w) in
    match store_get i (records s) with
    | Some r => (Resolved (Obj r), cache_store (cacheKey c i) r w2)
    | None => (Resolved Undefined, w2)
    end.
Proof.
  intros Hc Hk Hmiss Hconn Hs Hf. unfold get.
  apply str_truthy_true in Hc. rewrite Hc. simpl.
  assert (match i with IdUndefined => true | _ => false end = false) as ->
    by (by destruct i).
  rewrite Hmiss.
  unfold try_catch, try_await, await, new_Promise, tx_get, db_transaction.
  rewrite (getDatabase_connected w Hconn), Hs, Hk. simpl. rewrite Hf. simpl.
  unfold lookup_result. by destruct (store_get i (records s)).
Qed.

Lemma get_miss_inv w c i r :
  cache_hit w (cacheKey c i) = None →
  (get c i w).1 = Resolved (Obj r) →
  ∃ s w1, c ≠ "" ∧ valid_key i = true ∧ getDatabase w = (Resolved tt, w1)
    ∧ database w !! c = Some s ∧ store_get i (records s) = Some r
    ∧ faults w (OpGet c i) = None
    ∧ (get c i w).2 =
        cache_store (cacheKey c i) r (log (OpGet c i) (log (OpTransaction c ReadOnly) w1)).
Proof.
  intros Hmiss. unfold get.
  destruct (str_truthy c) eqn:Hc; [|done]. simpl.
  destruct (match i with IdUndefined => true | _ => false end) eqn:Hi; [done|].
  rewrite Hmiss.
  unfold try_catch, try_await, await, new_Promise, tx_get, db_transaction, Promise_reject,
    Promise_resolve.
  pose proof (getDatabase_same_cache w) as (_ & _ & Hfl).
  destruct (getDatabase w) as [[| [] |] w1] eqn:Hdb; simpl in *; try done.
  apply getDatabase_resolved in Hdb as Hdb'. destruct Hdb' as (_ & _ & Hd & _).
  rewrite Hd, Hfl.
  destruct (database w !! c) as [s|] eqn:Hs; simpl; [|done].
  destruct (valid_key i) eqn:Hk; simpl; [|done].
  destruct (faults w (OpGet c i)) eqn:Hf; simpl; [done|].
  unfold lookup_result.
  destruct (store_get i (records s)) as [r'|] eqn:Hg; simpl; [|done].
  intros [= ->]. exists s, w1. by rewrite str_truthy_true in Hc.
Qed.

(** ** Writing *)

(** A [set] that resolves: what the world had to be, and what the call
    leaves behind. *)
Lemma set_resolved_inv w c v b :
  (set c v w).1 = Resolved b →
  ∃ r s w1, v = Obj r ∧ b = true ∧ c ≠ "" ∧ id_truthy (rec_id r) = true
    ∧ valid_key (rec_id r) = true
    ∧ getDatabase w = (Resolved tt, w1)
    ∧ database w !! c = Some s
    ∧ faults w (OpPut c r) = None ∧ faults w (OpCommit c) = None
    ∧ (set c v w).2 =
        set_database
          (<[c := {| records := store_put r (records s); indexNames := indexNames s |}]>
             (database w))
          (log (OpPut c r) (log (OpTransaction c ReadWrite) w1)).
Proof.
  unfold set.
  destruct v as [| |r]; simpl; try done.
  destruct (str_truthy c) eqn:Hc; simpl; [|done].
  destruct (id_truthy (rec_id r)) eqn:Hid; simpl; [|done].
  unfold try_await, new_Promise, tx_put, db_transaction, Promise_reject.
  pose proof (getDatabase_same_cache w) as (_ & _ & Hfl).
  destruct (getDatabase w) as [[| [] |] w1] eqn:Hdb; simpl in *; try done.
  apply getDatabase_resolved in Hdb as Hdb'. destruct Hdb' as (_ & _ & Hd & _).
  rewrite Hd, Hfl.
  destruct (database w !! c) as [s|] eqn:Hs; simpl; [|done].
  destruct (valid_key (rec_id r)) eqn:Hk; simpl; [|done].
  destruct (faults w (OpPut c r)) eqn:Hf; simpl; [done|].
  destruct (faults w (OpCommit c)) eqn:Hcm; simpl; [done|].
  intros [= <-]. exists r, s, w1. rewrite str_truthy_true in Hc. by rewrite Hd.
Qed.

Lemma id_truthy_defined i : id_truthy i = true → i ≠ IdUndefined.
Proof. by destruct i. Qed.

(** ** Read after write *)



(** C1, counterexample: the old version of [a] was read and sits in the
    cache; [set] of the new version resolves, and the [get] that follows
    still gives the old one. *)
Lemma stale_read_after_write :
  (set "Mosaic" (Obj (photo "a" 1 "new")) stale_world).1 = Resolved true
  ∧ (get "Mosaic" (IdStr "a") (set "Mosaic" (Obj (photo "a" 1 "new")) stale_world).2).1
    = Resolved (Obj (photo "a" 1 "old"))
  ∧ ¬ read_after_write stale_world "Mosaic" (photo "a" 1 "new").
Proof.
  split; [by vm_compute|]. split; [by vm_compute|].
  unfold read_after_write. intros H.
  assert ((set "Mosaic" (Obj (photo "a" 1 "new")) stale_world).1 = Resolved true) as Hs
    by (by vm_compute).
  specialize (H Hs). vm_compute in H. discriminate H.
Qed.

(** C1, as the code has it: after [set] has resolved, [get] of the same id
    gives the record written when the cache holds no unexpired entry under
    the key of that id, and gives the cached record when it holds one. *)
Theorem read_after_write_uncached w c r :
  (set c (Obj r) w).1 = Resolved true →
  faults w (OpGet c (rec_id r)) = None →
  (cache_hit w (cacheKey c (rec_id r)) = None → read_after_write w c r)
  ∧ (∀ r0, cache_hit w (cacheKey c (rec_id r)) = Some r0 →
       (get c (rec_id r) (set c (Obj r) w).2).1 = Resolved (Obj r0)).
Proof.
  intros Hset Hget.
  pose proof (set_same_cache c (Obj r) w) as Hsame.
  destruct (set_resolved_inv _ _ _ _ Hset)
    as (r' & s & w1 & [= <-] & _ & Hc & Hid & Hk & Hdb & Hs & _ & _ & Hw).
  split.
  - intros Hmiss _.
    apply getDatabase_resolved in Hdb as (_ & Hconn & _ & _).
    rewrite (get_miss_read _ c (rec_id r)
               {| records := store_put r (records s); indexNames := indexNames s |});
      try done.
    + simpl. by rewrite store_get_put.
    + by rewrite (same_cache_hit w).
    + by rewrite Hw.
    + rewrite Hw. simpl. by rewrite lookup_insert_eq.
    + destruct Hsame as (_ & _ & ->). done.
  - intros r0 Hhit.
    rewrite (get_hit _ c (rec_id r) r0); try done.
    + by apply id_truthy_defined.
    + by rewrite (same_cache_hit w).
Qed.

Lemma read_after_write_uncached_witness :
  read_after_write (mosaic_world [photo "a" 1 "old"]) "Mosaic" (photo "a" 1 "new").
Proof.
  apply (read_after_write_uncached (mosaic_world [photo "a" 1 "old"]) "Mosaic"
           (photo "a" 1 "new")); by vm_compute.
Defined.

(** ** The cache between calls *)

(** C5: [set] and [deleteRecord] leave [memoryCache] as it was, whatever
    their arguments and whether they succeed; an entry that has not expired
    is therefore still what [get] answers with afterwards, also for the key
    that was overwritten or deleted. *)
Theorem set_deleteRecord_keep_cache w c v i :
  memoryCache (set c v w).2 = memoryCache w
  ∧ memoryCache (deleteRecord c i w).2 = memoryCache w
  ∧ ∀ c' i' e d,
      c' ≠ "" → i' ≠ IdUndefined →
      memoryCache w !! cacheKey c' i' = Some e →
      clock w + d < expires e →
      (get c' i' (tick d (set c v w).2)).1 = Resolved (Obj (value e))
      ∧ (get c' i' (tick d (deleteRecord c i w).2)).1 = Resolved (Obj (value e)).
Proof.
  destruct (set_same_cache c v w) as (Hm1 & Hc1 & _).
  destruct (deleteRecord_same_cache c i w) as (Hm2 & Hc2 & _).
  split; [done|]. split; [done|].
  intros c' i' e d Hc' Hi' He Hlt. split.
  - rewrite (get_hit _ c' i' (value e)); try done.
    apply cache_hit_tick; [by rewrite Hm1 | by rewrite Hc1].
  - rewrite (get_hit _ c' i' (value e)); try done.
    apply cache_hit_tick; [by rewrite Hm2 | by rewrite Hc2].
Qed.

Lemma set_deleteRecord_keep_cache_witness :
  (get "Mosaic" (IdStr "a")
     (tick 500 (set "Mosaic" (Obj (photo "a" 1 "new")) stale_world).2)).1
    = Resolved (Obj (photo "a" 1 "old"))
  ∧ (get "Mosaic" (IdStr "a")
       (tick 500 (deleteRecord "Mosaic" (IdStr "a") stale_world).2)).1
    = Resolved (Obj (photo "a" 1 "old")).
Proof.
  destruct (set_deleteRecord_keep_cache stale_world "Mosaic" (Obj (photo "a" 1 "new"))
              (IdStr "a")) as (_ & _ & Hget).
  apply (Hget "Mosaic" (IdStr "a")
           {| value := photo "a" 1 "old"; expires := 1000 + CACHE_TTL |} 500);
    by vm_compute.
Defined.

(** C7: a [get] that misses the cache and reads a record stores it with
    [expires = now + CACHE_TTL]; while the clock is below that, a second
    [get] answers with the same record and leaves the world, its trace of
    store calls included, untouched; once the clock has reached it, [get]
    opens a transaction and issues a [store.get] again. *)
Theorem get_cached_within_ttl w c i r :
  cache_hit w (cacheKey c i) = None →
  (get c i w).1 = Resolved (Obj r) →
  memoryCache (get c i w).2 !! cacheKey c i
    = Some {| value := r; expires := clock w + CACHE_TTL |}
  ∧ (∀ d, clock w + d < clock w + CACHE_TTL →
       get c i (tick d (get c i w).2) = (Resolved (Obj r), tick d (get c i w).2))
  ∧ (∀ d, clock w + CACHE_TTL ≤ clock w + d →
       trace (get c i (tick d (get c i w).2)).2
       = trace (get c i w).2 ++ [OpTransaction c ReadOnly; OpGet c i]).
Proof.
  intros Hmiss Hres.
  destruct (get_miss_inv _ _ _ _ Hmiss Hres) as (s & w1 & Hc & Hk & Hdb & Hs & Hg & Hf & Hw).
  pose proof (getDatabase_same_cache w) as Hsame. rewrite Hdb in Hsame.
  destruct Hsame as (Hm1 & Hc1 & Hf1). simpl in *.
  apply getDatabase_resolved in Hdb as (_ & Hconn & Hd & _).
  assert (memoryCache (get c i w).2 !! cacheKey c i
          = Some {| value := r; expires := clock w + CACHE_TTL |}) as Hentry.
  { rewrite Hw. simpl. rewrite lookup_insert_eq. by rewrite Hc1. }
  assert (clock (get c i w).2 = clock w) as Hclock by (by rewrite Hw).
  split; [done|]. split.
  - intros d Hd'. apply get_hit; [done | by destruct i |].
    rewrite (cache_hit_tick _ d _ _ Hentry); [done|]. simpl. lia.
  - intros d Hd'.
    rewrite (get_miss_read _ c i s); try done.
    + destruct (store_get i (records s)); simpl; by rewrite <- app_assoc.
    + apply (cache_miss_tick _ d _ _ Hentry). simpl. lia.
    + by rewrite Hw.
    + rewrite Hw. simpl. by rewrite Hd.
    + rewrite Hw. simpl. by rewrite Hf1.
Qed.

Lemma get_cached_within_ttl_witness :
  get "Mosaic" (IdStr "a") (tick 5000 stale_world)
    = (Resolved (Obj (photo "a" 1 "old")), tick 5000 stale_world)
  ∧ trace (get "Mosaic" (IdStr "a") (tick CACHE_TTL stale_world)).2
    = trace stale_world ++ [OpTransaction "Mosaic" ReadOnly; OpGet "Mosaic" (IdStr "a")].
Proof.
  destruct (get_cached_within_ttl (mosaic_world [photo "a" 1 "old"]) "Mosaic" (IdStr "a")
              (photo "a" 1 "old")) as (_ & Hin & Hout); [by vm_compute | by vm_compute |].
  split.
  - apply (Hin 5000). by vm_compute.
  - apply (Hout CACHE_TTL). by vm_compute.
Defined.

(** C10: with [ids] not an array, or an empty one, [getBulk] resolves with
    the empty array and the world is the one it started from: no connection
    opened, no call traced. *)
Theorem getBulk_nothing_requested w c :
  getBulk c NotArray w = (Resolved [], w)
  ∧ getBulk c (IdsArray []) w = (Resolved [], w).
Proof. split; reflexivity. Qed.

(** ** count *)

(** Every run of [count].  When the connection cannot be opened, the
    awaited [getDatabase()] throws inside the [try] and the [catch] resolves
    with 0.  Once the connection is there the promise built around the
    transaction is returned as it is, outside the reach of the [catch]: it
    rejects with [NotFoundError] when the store does not exist
    ([db.transaction] throws in the executor), rejects with the error of the
    request when the count request fails, and resolves with the number of
    records otherwise. *)
Lemma count_paths w c :
  (dbConnection w = false → ∀ e, faults w OpOpen = Some e →
     (count c w).1 = Resolved 0)
  ∧ (connectable w → database w !! c = None →
     (count c w).1 = Rejected NotFoundError)
  ∧ (connectable w → ∀ s e, database w !! c = Some s → faults w (OpCount c) = Some e →
     (count c w).1 = Rejected e)
  ∧ (connectable w → ∀ s, database w !! c = Some s → faults w (OpCount c) = None →
     (count c w).1 = Resolved (Z.of_nat (length (records s)))).
Proof.
  unfold count, try_await, new_Promise, tx_count, db_transaction, Promise_resolve.
  split; [|split; [|split]].
  - intros Hclosed e He. unfold getDatabase. by rewrite Hclosed, He.
  - intros Hconn Hs.
    destruct (getDatabase_connectable w Hconn) as (w1 & -> & _ & Hd & _ & _ & Hfl).
    by rewrite Hd, Hs.
  - intros Hconn s e Hs Hf.
    destruct (getDatabase_connectable w Hconn) as (w1 & -> & _ & Hd & _ & _ & Hfl).
    by rewrite Hd, Hs, Hfl, Hf.
  - intros Hconn s Hs Hf.
    destruct (getDatabase_connectable w Hconn) as (w1 & -> & _ & Hd & _ & _ & Hfl).
    by rewrite Hd, Hs, Hfl, Hf.
Qed.

(** C3, the code at the failing inputs: on a database that opens and has
    no store [Nope], [count "Nope"] rejects with [NotFoundError]; on an
    existing store whose count request fails, [count] rejects with the
    error of the request; so [count] does reject.  Of the three failures
    the claim names, only the one that the [catch] can see, a connection
    that does not open, resolves with 0. *)
Theorem count_rejects_on_failure :
  (count "Nope" (mosaic_world [photo "a" 1 "old"])).1 = Rejected NotFoundError
  ∧ (count "Mosaic" count_fault_world).1 = Rejected (DOMException "UnknownError")
  ∧ ¬ count_never_rejects (mosaic_world [photo "a" 1 "old"]) "Nope"
  ∧ ¬ count_never_rejects count_fault_world "Mosaic"
  ∧ (count "Mosaic" closed_world).1 = Resolved 0.
Proof.
  split; [by vm_compute|]. split; [by vm_compute|].
  split; [|split; [|by vm_compute]].
  - intros H. apply (H NotFoundError). by vm_compute.
  - intros H. apply (H (DOMException "UnknownError")). by vm_compute.
Qed.

(** ** set *)

(** Whatever events arrive, the promise of [set] resolves only through
    [transaction.oncomplete]. *)
Lemma set_handlers_complete evs p b :
  fold_left (fun p ev => set_handlers ev p) evs p = Resolved b →
  p = Resolved b ∨ (b = true ∧ TransactionComplete ∈ evs).
Proof.
  revert p. induction evs as [|ev evs IH]; intros p; simpl.
  - auto.
  - intros H. destruct (IH _ H) as [Hp | [-> Hin]].
    + destruct ev, p; simpl in Hp; simplify_eq; auto.
      right. split; [done|]. apply list_elem_of_here.
    + right. split; [done|]. by apply list_elem_of_further.
Qed.

Lemma set_connected w c r w1 :
  c ≠ "" → id_truthy (rec_id r) = true →
  getDatabase w = (Resolved tt, w1) →
  set c (Obj r) w = new_Promise (tx_put c r) set_handlers w1.
Proof.
  intros Hc Hid Hdb. unfold set. simpl.
  apply str_truthy_true in Hc. rewrite Hc, Hid. simpl.
  unfold try_await. by rewrite Hdb.
Qed.

(** C6: [set] rejects a missing value, an empty collection name and a value
    without [id], and leaves the world as it found it; on valid input with
    a connection it opens exactly one transaction, a read-write one; its
    promise resolves, with [true], only through the [complete] event of that
    transaction: an acknowledged put alone leaves it pending, and when the
    put is acknowledged but the transaction does not commit, [set] never
    resolves and the store is unchanged.  And the write is made: on valid
    input, with a connection, the collection there, a valid key, and a put
    and a commit that do not fail, [set] resolves with [true], its calls
    after the connection are the read-write transaction and the put of the
    record, nothing else, and the collection afterwards is the old one
    with the record put under its id, every other collection untouched. *)
Theorem set_validates_and_commits w c v :
  ((truthy v = false ∨ c = "" ∨ id_truthy (value_id v) = false) →
     ∃ e, set c v w = (Rejected e, w))
  ∧ (∀ r, v = Obj r → c ≠ "" → id_truthy (rec_id r) = true → connectable w →
       filter is_transaction (new_calls w (set c v w).2) = [OpTransaction c ReadWrite])
  ∧ (∀ evs b, settle set_handlers evs = Resolved b → b = true ∧ TransactionComplete ∈ evs)
  ∧ settle set_handlers [RequestSuccess tt] = Pending
  ∧ (∀ b, (set c v w).1 = Resolved b →
       b = true ∧ faults w (OpCommit c) = None
       ∧ ∃ r s', v = Obj r ∧ database (set c v w).2 !! c = Some s'
                 ∧ store_get (rec_id r) (records s') = Some r)
  ∧ (∀ r s e, v = Obj r → c ≠ "" → id_truthy (rec_id r) = true → connectable w →
       database w !! c = Some s → valid_key (rec_id r) = true →
       faults w (OpPut c r) = None → faults w (OpCommit c) = Some e →
       (set c v w).1 = Pending ∧ database (set c v w).2 = database w)
  ∧ (∀ r s, v = Obj r → c ≠ "" → id_truthy (rec_id r) = true → connectable w →
       database w !! c = Some s → valid_key (rec_id r) = true →
       faults w (OpPut c r) = None → faults w (OpCommit c) = None →
       (set c v w).1 = Resolved true
       ∧ new_calls (getDatabase w).2 (set c v w).2 = [OpTransaction c ReadWrite; OpPut c r]
       ∧ database (set c v w).2
         = <[c := {| records := store_put r (records s); indexNames := indexNames s |}]>
             (database w)
       ∧ store_get (rec_id r) (store_put r (records s)) = Some r).
Proof.
  split; [|split; [|split; [|split; [|split; [|split]]]]].
  - intros Hbad. unfold set, Promise_reject.
    destruct v as [| |r]; simpl; eauto.
    destruct (str_truthy c) eqn:Hc; simpl; eauto.
    destruct (id_truthy (rec_id r)) eqn:Hid; simpl; eauto.
    destruct Hbad as [?|[->|?]]; simpl in *; [done | by cbv in Hc | congruence].
  - intros r -> Hc Hid Hconn.
    destruct (getDatabase_connectable w Hconn) as (w1 & Hdb & _ & _ & _).
    rewrite (set_connected _ _ _ _ Hc Hid Hdb), new_Promise_snd.
    apply getDatabase_resolved in Hdb as (_ & _ & _ & Hw1).
    unfold new_calls, tx_put, db_transaction.
    destruct Hw1 as [-> | ->]; repeat case_match; simplify_eq/=;
      rewrite <- ?app_assoc, drop_app_length; done.
  - intros evs b H. destruct (set_handlers_complete evs Pending b H) as [|]; done.
  - reflexivity.
  - intros b Hres.
    destruct (set_resolved_inv _ _ _ _ Hres)
      as (r & s & w1 & -> & -> & _ & _ & _ & _ & _ & _ & Hcm & Hw).
    split; [done|]. split; [done|].
    exists r, {| records := store_put r (records s); indexNames := indexNames s |}.
    split; [done|]. split.
    + rewrite Hw. simpl. by rewrite lookup_insert_eq.
    + simpl. apply store_get_put.
  - intros r s e -> Hc Hid Hconn Hs Hk Hput Hcm.
    destruct (getDatabase_connectable w Hconn) as (w1 & Hdb & _ & Hd & _ & _ & Hfl).
    rewrite (set_connected _ _ _ _ Hc Hid Hdb).
    unfold new_Promise, tx_put, db_transaction.
    rewrite Hd, Hs, Hk, Hfl, Hput, Hcm. simpl. done.
  - intros r s -> Hc Hid Hconn Hs Hk Hput Hcm.
    destruct (getDatabase_connectable w Hconn) as (w1 & Hdb & _ & Hd & _ & _ & Hfl).
    rewrite (set_connected _ _ _ _ Hc Hid Hdb), Hdb.
    unfold new_Promise, tx_put, db_transaction.
    rewrite Hd, Hs, Hk, Hfl, Hput, Hcm. simpl. rewrite ?Hd.
    split; [done|]. split; [|split; [done|apply store_get_put]].
    unfold new_calls. simpl. by rewrite <- ?app_assoc, drop_app_length.
Qed.

Lemma set_validates_and_commits_witness :
  (∃ e, set "Mosaic" Undefined (mosaic_world []) = (Rejected e, mosaic_world []))
  ∧ filter is_transaction
      (new_calls (mosaic_world [])
         (set "Mosaic" (Obj (photo "a" 1 "x")) (mosaic_world [])).2)
    = [OpTransaction "Mosaic" ReadWrite]
  ∧ ((set "Mosaic" (Obj (photo "a" 1 "x")) commit_fault_world).1 = Pending
  ∧ database (set "Mosaic" (Obj (photo "a" 1 "x")) commit_fault_world).2
    = database commit_fault_world)
  ∧ ((set "Mosaic" (Obj (photo "b" 2 "y")) (mosaic_world [photo "a" 1 "x"])).1
     = Resolved true
     ∧ new_calls (getDatabase (mosaic_world [photo "a" 1 "x"])).2
         (set "Mosaic" (Obj (photo "b" 2 "y")) (mosaic_world [photo "a" 1 "x"])).2
       = [OpTransaction "Mosaic" ReadWrite; OpPut "Mosaic" (photo "b" 2 "y")]
     ∧ database (set "Mosaic" (Obj (photo "b" 2 "y")) (mosaic_world [photo "a" 1 "x"])).2
       = <["Mosaic" := {| records := store_put (photo "b" 2 "y") [photo "a" 1 "x"];
                          indexNames := [] |}]>
           (database (mosaic_world [photo "a" 1 "x"]))
     ∧ store_get (IdStr "b") (store_put (photo "b" 2 "y") [photo "a" 1 "x"])
       = Some (photo "b" 2 "y")).
Proof.
  split; [|split; [|split]].
  - apply (set_validates_and_commits (mosaic_world []) "Mosaic" Undefined). by left.
  - destruct (set_validates_and_commits (mosaic_world []) "Mosaic" (Obj (photo "a" 1 "x")))
      as (_ & H & _).
    apply (H (photo "a" 1 "x")); [done | done | done | by right].
  - destruct (set_validates_and_commits commit_fault_world "Mosaic" (Obj (photo "a" 1 "x")))
      as (_ & _ & _ & _ & _ & H & _).
    apply (H (photo "a" 1 "x") {| records := [photo "a" 1 "old"]; indexNames := [] |}
             (DOMException "QuotaExceededError")); try done; by right.
  - destruct (set_validates_and_commits (mosaic_world [photo "a" 1 "x"]) "Mosaic"
                (Obj (photo "b" 2 "y"))) as (_ & _ & _ & _ & _ & _ & H).
    apply (H (photo "b" 2 "y") {| records := [photo "a" 1 "x"]; indexNames := [] |});
      [done | done | done | by right | by vm_compute | done | done | done].
Defined.

(** ** getRange *)

(** The handler once the skip is behind it (or was never due): it collects
    records until [items] has [take] of them or the cursor runs out. *)
Lemma getRange_collect skip take skipped l :
  negb skipped && (0 <? skip) = false →
  ∀ fuel items, (length l < fuel)%nat →
    iterate (getRange_onsuccess skip take) fuel l (items, skipped)
    = Resolved (items ++ firstn (Z.to_nat (take - Z.of_nat (length items))) l).
Proof.
  intros Hguard. induction l as [|v l IH]; intros fuel items Hfuel.
  - destruct fuel; [simpl in Hfuel; lia|]. simpl.
    by rewrite firstn_nil, app_nil_r.
  - destruct fuel; [simpl in Hfuel; lia|]. simpl. rewrite Hguard.
    destruct (Z.ltb_spec (Z.of_nat (length items)) take) as [Hlt|Hge].
    + rewrite drop_0, IH by (simpl in Hfuel; lia).
      rewrite length_app. simpl.
      replace (Z.to_nat (take - Z.of_nat (length items)))
        with (S (Z.to_nat (take - Z.of_nat (length items + 1)))) by lia.
      simpl. by rewrite <- app_assoc.
    + replace (Z.to_nat (take - Z.of_nat (length items))) with 0%nat by lia.
      simpl. by rewrite app_nil_r.
Qed.

Lemma getRange_iterate skip take l :
  iterate (getRange_onsuccess skip take) (S (length l)) l ([], false)
  = Resolved (firstn (Z.to_nat take) (skipn (Z.to_nat skip) l)).
Proof.
  destruct (Z.ltb_spec 0 skip) as [Hpos|Hneg].
  - destruct l as [|v l].
    + simpl. by rewrite skipn_nil, firstn_nil.
    + remember (length (v :: l)) as fuel eqn:Hfuel.
      cbn [iterate getRange_onsuccess head negb andb].
      destruct (Z.ltb_spec 0 skip); [|lia].
      rewrite (getRange_collect skip take true); [|done|].
      * simpl. by rewrite Z.sub_0_r.
      * subst fuel. destruct (Z.to_nat skip) as [|n] eqn:Hn; [lia|]. simpl.
        rewrite length_skipn. lia.
  - rewrite (getRange_collect skip take false).
    + simpl. rewrite Z.sub_0_r. replace (Z.to_nat skip) with 0%nat by lia. done.
    + simpl. by destruct (Z.ltb_spec 0 skip); [lia|].
    + lia.
Qed.

(** C8: on a collection that can be read, [getRange] resolves with the
    records in the order of the store, the first [skip] left out and no
    more than [take] kept; that is nothing when [skip] is at least the
    number of records, and nothing when [take] is 0. *)
Theorem getRange_window w c s skip take :
  connectable w →
  database w !! c = Some s →
  faults w (OpOpenCursor c) = None →
  ∃ items,
    (getRange c skip take w).1 = Resolved items
    ∧ (Z.of_nat (length (records s)) ≤ skip → items = [])
    ∧ (take = 0 → items = [])
    ∧ (0 ≤ take → Z.of_nat (length items) ≤ take)
    ∧ items = firstn (Z.to_nat take) (skipn (Z.to_nat skip) (records s)).
Proof.
  intros Hconn Hs Hf.
  exists (firstn (Z.to_nat take) (skipn (Z.to_nat skip) (records s))).
  split; [|split; [|split; [|split]]].
  - unfold getRange, try_await, cursor_Promise, openCursor, db_transaction.
    destruct (getDatabase_connectable w Hconn) as (w1 & -> & _ & Hd & _ & _ & Hfl).
    rewrite Hd, Hs, Hfl, Hf. simpl. apply getRange_iterate.
  - intros Hskip. rewrite skipn_all2 by lia. apply firstn_nil.
  - intros ->. done.
  - intros Htake. rewrite length_firstn. lia.
  - done.
Qed.

Lemma getRange_window_witness :
  (getRange "Mosaic" 1 2
     (mosaic_world [photo "a" 1 "x"; photo "b" 2 "y"; photo "c" 3 "z"; photo "d" 4 "u"])).1
  = Resolved [photo "b" 2 "y"; photo "c" 3 "z"].
Proof.
  destruct (getRange_window
              (mosaic_world [photo "a" 1 "x"; photo "b" 2 "y"; photo "c" 3 "z"; photo "d" 4 "u"])
              "Mosaic"
              {| records := [photo "a" 1 "x"; photo "b" 2 "y"; photo "c" 3 "z"; photo "d" 4 "u"];
                 indexNames := [] |} 1 2)
    as (items & Hres & _ & _ & _ & ->); [by right | by vm_compute | by vm_compute |].
  exact Hres.
Defined.

(** ** getAllPagedByDate *)

(** The handler past the skip: it resolves with the records pushed so far
    as soon as there are [take] of them (one, when [take] is below one), in
    the order the cursor gave them; only when the cursor runs out first are
    they sorted (store cursor) and sliced. *)
Lemma getAllPagedByDate_collect index skip take skipped l :
  negb skipped && (0 <? skip) = false →
  ∀ fuel items, (length l < fuel)%nat →
    iterate (getAllPagedByDate_onsuccess index skip take) fuel l (items, skipped)
    = Resolved
        (if Z.of_nat (length l) <? Z.max 1 (take - Z.of_nat (length items))
         then slice0 take (sorted_unless index (items ++ l))
         else items ++ firstn (Z.to_nat (Z.max 1 (take - Z.of_nat (length items)))) l).
Proof.
  intros Hguard. induction l as [|v l IH]; intros fuel items Hfuel.
  - destruct fuel; [simpl in Hfuel; lia|].
    cbn [iterate getAllPagedByDate_onsuccess head length].
    destruct (Z.ltb_spec (Z.of_nat 0) (Z.max 1 (take - Z.of_nat (length items)))); [|lia].
    by rewrite app_nil_r.
  - destruct fuel; [simpl in Hfuel; lia|].
    cbn [iterate getAllPagedByDate_onsuccess head]. rewrite Hguard.
    rewrite length_app. cbn [length].
    destruct (Z.leb_spec take (Z.of_nat (length items + 1))) as [Hle|Hgt].
    + destruct (Z.ltb_spec (Z.of_nat (S (length l)))
                  (Z.max 1 (take - Z.of_nat (length items)))); [lia|].
      replace (Z.to_nat (Z.max 1 (take - Z.of_nat (length items)))) with 1%nat by lia.
      done.
    + change (drop 1 (v :: l)) with l. rewrite IH by (simpl in Hfuel; lia).
      rewrite length_app. cbn [length].
      destruct (Z.ltb_spec (Z.of_nat (length l))
                  (Z.max 1 (take - Z.of_nat (length items + 1))));
        destruct (Z.ltb_spec (Z.of_nat (S (length l)))
                    (Z.max 1 (take - Z.of_nat (length items)))); try lia.
      * by rewrite <- app_assoc.
      * replace (Z.to_nat (Z.max 1 (take - Z.of_nat (length items))))
          with (S (Z.to_nat (Z.max 1 (take - Z.of_nat (length items + 1))))) by lia.
        simpl. by rewrite <- app_assoc.
Qed.

Lemma getAllPagedByDate_iterate index skip take l :
  iterate (getAllPagedByDate_onsuccess index skip take) (S (length l)) l ([], false)
  = Resolved
      (let rest := skipn (Z.to_nat skip) l in
       if Z.of_nat (length rest) <? Z.max 1 take
       then slice0 take (sorted_unless index rest)
       else firstn (Z.to_nat (Z.max 1 take)) rest).
Proof.
  destruct (Z.ltb_spec 0 skip) as [Hpos|Hneg].
  - destruct l as [|v l].
    + cbn [iterate getAllPagedByDate_onsuccess head length].
      rewrite skipn_nil. cbn [length].
      by destruct (Z.ltb_spec (Z.of_nat 0) (Z.max 1 take)); [|lia].
    + remember (length (v :: l)) as fuel eqn:Hfuel.
      cbn [iterate getAllPagedByDate_onsuccess head negb andb].
      destruct (Z.ltb_spec 0 skip); [|lia].
      rewrite (getAllPagedByDate_collect index skip take true); [|done|].
      * cbn [length app]. by rewrite Z.sub_0_r.
      * subst fuel. destruct (Z.to_nat skip) as [|n] eqn:Hn; [lia|]. simpl.
        rewrite length_skipn. lia.
  - rewrite (getAllPagedByDate_collect index skip take false).
    + cbn [length app]. rewrite Z.sub_0_r.
      replace (Z.to_nat skip) with 0%nat by lia. done.
    + simpl. by destruct (Z.ltb_spec 0 skip); [lia|].
    + lia.
Qed.

(** Without the [UploadDate] index the records come in key order, and a
    page that fills up is handed out in that order. *)
Lemma getAllPagedByDate_store_order w c s skip take :
  connectable w →
  database w !! c = Some s →
  has_index "UploadDate" s = false →
  faults w (OpOpenCursor c) = None →
  Z.max 1 take ≤ Z.of_nat (length (skipn (Z.to_nat skip) (records s))) →
  (getAllPagedByDate c skip take w).1
  = Resolved (firstn (Z.to_nat (Z.max 1 take)) (skipn (Z.to_nat skip) (records s))).
Proof.
  intros Hconn Hs Hi Hf Hlen.
  unfold getAllPagedByDate, try_await, cursor_Promise, openCursorByDate, db_transaction.
  destruct (getDatabase_connectable w Hconn) as (w1 & -> & _ & Hd & _ & _ & Hfl).
  rewrite Hd, Hs, Hi, Hfl, Hf. cbn [fst snd].
  rewrite getAllPagedByDate_iterate. cbn zeta.
  by destruct (Z.ltb_spec (Z.of_nat (length (skipn (Z.to_nat skip) (records s))))
                 (Z.max 1 take)); [lia|].
Qed.

(** C2, the failing input: a store without the [UploadDate] index holds
    [a] (date 1) and [b] (date 2); a page of two is resolved by the early
    [resolve(items)] before any sort, in key order, oldest first. *)
Theorem getAllPagedByDate_fallback_unsorted :
  (getAllPagedByDate "Mosaic" 0 2 (mosaic_world [photo "a" 1 "x"; photo "b" 2 "y"])).1
  = Resolved [photo "a" 1 "x"; photo "b" 2 "y"]
  ∧ ¬ newest_first [photo "a" 1 "x"; photo "b" 2 "y"].
Proof.
  split.
  - by vm_compute.
  - simpl. intros [H _]. lia.
Qed.

(** *** The index path *)

Lemma newest_first_cons x l :
  newest_first (x :: l)
  ↔ match l with
    | [] => True
    | y :: _ =>
        match rec_UploadDate x, rec_UploadDate y with
        | Some dx, Some dy => dy ≤ dx
        | _, _ => False
        end
    end ∧ newest_first l.
Proof. destruct l; simpl; tauto. Qed.

Lemma newest_first_tail x l : newest_first (x :: l) → newest_first l.
Proof. rewrite newest_first_cons. tauto. Qed.

Lemma insert_desc_newest_first v d l :
  rec_UploadDate v = Some d →
  newest_first l → Forall dated l →
  newest_first (insert_desc v d l) ∧ Forall dated (insert_desc v d l).
Proof.
  intros Hv. induction l as [|x rest IH]; intros Hsorted Hdated.
  - simpl. split; [done|]. constructor; [unfold dated; rewrite Hv; eauto|done].
  - inversion Hdated as [|? ? [dx Hx] Hrest]; subst. simpl. rewrite Hx.
    destruct (Z.leb_spec dx d) as [Hle|Hgt].
    + split.
      * apply newest_first_cons. split; [by rewrite Hv, Hx|done].
      * constructor; [unfold dated; rewrite Hv; eauto|done].
    + destruct (IH (newest_first_tail _ _ Hsorted) Hrest) as (IHs & IHd).
      split; [|constructor; [unfold dated; rewrite Hx; eauto|done]].
      apply newest_first_cons. split; [|done].
      destruct rest as [|y rest'].
      * simpl. rewrite Hx, Hv. lia.
      * apply newest_first_cons in Hsorted as [Hxy _]. rewrite Hx in Hxy.
        simpl. destruct (rec_UploadDate y) as [dy|] eqn:Hy; [|done].
        destruct (dy <=? d); simpl; rewrite Hx, ?Hv, ?Hy; lia.
Qed.

Lemma index_prev_newest_first l : newest_first (index_prev l).
Proof.
  unfold index_prev.
  assert (∀ acc, newest_first acc → Forall dated acc →
                 newest_first
                   (fold_left (fun acc v =>
                                 match rec_UploadDate v with
                                 | Some d => insert_desc v d acc
                                 | None => acc
                                 end) l acc)) as H.
  { induction l as [|v l IH]; intros acc Hs Hd; simpl; [done|].
    destruct (rec_UploadDate v) as [d|] eqn:Hv; [|by apply IH].
    destruct (insert_desc_newest_first v d acc Hv Hs Hd). by apply IH. }
  apply H; [done | constructor].
Qed.

Lemma newest_first_firstn n l : newest_first l → newest_first (firstn n l).
Proof.
  revert l. induction n as [|n IH]; intros [|x l] H; try done.
  change (newest_first (x :: firstn n l)).
  apply newest_first_cons in H as [Hxy Hl].
  apply newest_first_cons. split; [|by apply IH].
  destruct l as [|y l]; [by destruct n|]. by destruct n.
Qed.

Lemma newest_first_skipn n l : newest_first l → newest_first (skipn n l).
Proof.
  revert l. induction n as [|n IH]; intros [|x l] H; try done.
  simpl. apply IH. by apply newest_first_tail in H.
Qed.

(** With the [UploadDate] index the page is newest first, on the stores
    [index_prev] describes. *)
Lemma getAllPagedByDate_indexed w c s skip take :
  connectable w →
  database w !! c = Some s →
  has_index "UploadDate" s = true →
  faults w (OpIndexCursor c "UploadDate") = None →
  ∃ items, (getAllPagedByDate c skip take w).1 = Resolved items ∧ newest_first items.
Proof.
  intros Hconn Hs Hi Hf.
  unfold getAllPagedByDate, try_await, cursor_Promise, openCursorByDate, db_transaction.
  destruct (getDatabase_connectable w Hconn) as (w1 & -> & _ & Hd & _ & _ & Hfl).
  rewrite Hd, Hs, Hi, Hfl, Hf. cbn [fst snd].
  rewrite getAllPagedByDate_iterate. cbn zeta. eexists. split; [done|].
  pose proof (newest_first_skipn (Z.to_nat skip) _ (index_prev_newest_first (records s))) as H.
  destruct (_ <? _).
  - unfold slice0, sorted_unless. destruct (0 <=? take); by apply newest_first_firstn.
  - by apply newest_first_firstn.
Qed.

(** ** clearCache *)

Lemma prefix_cons a p b s :
  String.prefix (String a p) (String b s) = true ↔ a = b ∧ String.prefix p s = true.
Proof.
  simpl. destruct (Ascii.ascii_dec a b); split; intros H; try done.
  - by destruct H.
  - by destruct H.
Qed.

Lemma prefix_append p s : String.prefix p (p +:+ s) = true.
Proof.
  induction p as [|a p IH]; simpl.
  - by destruct s.
  - by destruct (Ascii.ascii_dec a a).
Qed.

Lemma prefix_append_sep c p s : String.prefix (c +:+ p) (c +:+ p +:+ s) = true.
Proof.
  induction c as [|a c IH].
  - change (String.prefix p (p +:+ s) = true). apply prefix_append.
  - change (String.prefix (String a (c +:+ p)) (String a (c +:+ p +:+ s)) = true).
    by rewrite prefix_cons.
Qed.

(** With no [":"] inside the names, a key tells its collection. *)
Lemma prefix_no_colon c c' s :
  no_colon c = true → no_colon c' = true →
  String.prefix (c +:+ ":") (c' +:+ ":" +:+ s) = true → c = c'.
Proof.
  revert c'. induction c as [|a c IH]; intros [|b c'] Hc Hc'.
  - done.
  - change (String.prefix (String ":"%char "") (String b (c' +:+ ":" +:+ s)) = true
            → "" = String b c').
    rewrite prefix_cons. intros [<- _]. by vm_compute in Hc'.
  - change (String.prefix (String a (c +:+ ":")) (String ":"%char s) = true
            → String a c = "").
    rewrite prefix_cons. intros [-> _]. by vm_compute in Hc.
  - simpl in Hc, Hc'. apply andb_true_iff in Hc as [_ Hc], Hc' as [_ Hc'].
    change (String.prefix (String a (c +:+ ":")) (String b (c' +:+ ":" +:+ s)) = true
            → String a c = String b c').
    rewrite prefix_cons. intros [-> H]. f_equal. by apply IH.
Qed.

Lemma lookup_delete_prefixed pre keys (m : gmap string cacheEntry) k :
  delete_prefixed pre keys m !! k
  = if String.prefix pre k && bool_decide (k ∈ keys) then None else m !! k.
Proof.
  unfold delete_prefixed. revert m.
  induction keys as [|key keys IH]; intros m; simpl.
  - by rewrite andb_false_r.
  - rewrite IH.
    destruct (String.prefix pre k) eqn:Hk; simpl; [|].
    + destruct (bool_decide (k ∈ keys)) eqn:Hin.
      * apply bool_decide_eq_true in Hin.
        rewrite bool_decide_eq_true_2; [done | by apply list_elem_of_further].
      * apply bool_decide_eq_false in Hin.
        destruct (decide (k = key)) as [->|Hne].
        -- rewrite Hk, lookup_delete_eq.
           rewrite bool_decide_eq_true_2; [done | apply list_elem_of_here].
        -- rewrite bool_decide_eq_false_2.
           ++ destruct (String.prefix pre key); [by rewrite lookup_delete_ne|done].
           ++ intros [?|?]%elem_of_cons; done.
    + destruct (String.prefix pre key) eqn:Hkey; [|done].
      rewrite lookup_delete_ne; [done|]. intros ->. congruence.
Qed.

Lemma lookup_clearCache w c k :
  c ≠ "" →
  memoryCache (clearCache (Some c) w) !! k
  = if String.prefix (c +:+ ":") k then None else memoryCache w !! k.
Proof.
  intros Hc. unfold clearCache. apply str_truthy_true in Hc. rewrite Hc. simpl.
  rewrite lookup_delete_prefixed.
  destruct (String.prefix (c +:+ ":") k); [|done]. simpl.
  destruct (bool_decide ((k ∈ (map_to_list (memoryCache w)).*1))) eqn:Hin; [done|].
  apply bool_decide_eq_false in Hin.
  destruct (memoryCache w !! k) as [e|] eqn:He; [|done].
  exfalso. apply Hin. apply list_elem_of_fmap. exists (k, e). split; [done|].
  by apply elem_of_map_to_list.
Qed.

(** C9, counterexample: a store is named [a:b]; its record [x] is cached
    under the key [a:b:x], which starts with [a:], and [clearCache("a")]
    removes it although it belongs to another collection. *)
Lemma clearCache_removes_other_collection :
  memoryCache colon_world !! cacheKey "a:b" (IdStr "x")
    = Some {| value := photo "x" 1 "old"; expires := 1000 + CACHE_TTL |}
  ∧ memoryCache (clearCache (Some "a") colon_world) !! cacheKey "a:b" (IdStr "x") = None
  ∧ ¬ clearCache_spares_others colon_world "a".
Proof.
  assert (memoryCache (clearCache (Some "a") colon_world) !! cacheKey "a:b" (IdStr "x") = None)
    as Hgone by (by vm_compute).
  assert (memoryCache colon_world !! cacheKey "a:b" (IdStr "x")
          = Some {| value := photo "x" 1 "old"; expires := 1000 + CACHE_TTL |}) as Hthere
    by (by vm_compute).
  split; [done|]. split; [done|].
  intros H. specialize (H "a:b" (IdStr "x")). rewrite Hgone, Hthere in H.
  by discriminate H.
Qed.

(** C9, as the code has it: for a non-empty name [clearCache] removes
    exactly the entries whose key starts with the name followed by [":"],
    among them every entry of that collection, and leaves every other entry
    as it was; an entry of another collection is among those left, and still
    a hit, when neither name contains [":"]; without argument [clearCache]
    empties the cache. *)
Theorem clearCache_by_prefix w c :
  c ≠ "" →
  (∀ k, memoryCache (clearCache (Some c) w) !! k
        = if String.prefix (c +:+ ":") k then None else memoryCache w !! k)
  ∧ (∀ i, memoryCache (clearCache (Some c) w) !! cacheKey c i = None)
  ∧ (∀ c' i, c' ≠ c → no_colon c = true → no_colon c' = true →
       memoryCache (clearCache (Some c) w) !! cacheKey c' i = memoryCache w !! cacheKey c' i
       ∧ cache_hit (clearCache (Some c) w) (cacheKey c' i) = cache_hit w (cacheKey c' i))
  ∧ memoryCache (clearCache None w) = ∅.
Proof.
  intros Hc. split; [|split; [|split]].
  - intros k. by apply lookup_clearCache.
  - intros i. rewrite lookup_clearCache by done. unfold cacheKey.
    by rewrite prefix_append_sep.
  - intros c' i Hne Hnc Hnc'.
    assert (memoryCache (clearCache (Some c) w) !! cacheKey c' i
            = memoryCache w !! cacheKey c' i) as Heq.
    { rewrite lookup_clearCache by done. unfold cacheKey.
      destruct (String.prefix (c +:+ ":") (c' +:+ ":" +:+ id_to_string i)) eqn:Hp; [|done].
      apply prefix_no_colon in Hp; [|done..]. congruence. }
    split; [done|].
    unfold cache_hit. rewrite Heq.
    unfold clearCache. apply str_truthy_true in Hc. by rewrite Hc.
  - done.
Qed.

Lemma clearCache_by_prefix_witness :
  memoryCache (clearCache (Some "Mosaic") two_collections_world)
    !! cacheKey "Mosaic" (IdStr "a") = None
  ∧ cache_hit (clearCache (Some "Mosaic") two_collections_world)
      (cacheKey "MosaicTemplate" (IdStr "t"))
    = cache_hit two_collections_world (cacheKey "MosaicTemplate" (IdStr "t")).
Proof.
  destruct (clearCache_by_prefix two_collections_world "Mosaic") as (_ & Hown & Hother & _);
    [done|].
  split.
  - apply Hown.
  - apply (Hother "MosaicTemplate" (IdStr "t")); done.
Defined.

(** ** getBulk *)

Lemma check_cache_spec c ids w results missingIds :
  check_cache c ids w = (results, missingIds) →
  (length results + length missingIds = length ids)%nat
  ∧ (∀ v, v ∈ results → ∃ i r, v = Obj r ∧ i ∈ ids ∧ cache_hit w (cacheKey c i) = Some r)
  ∧ (∀ i, i ∈ missingIds → i ∈ ids).
Proof.
  revert results missingIds.
  induction ids as [|i ids IH]; intros results missingIds; simpl.
  - intros [= <- <-]. repeat split; [intros ? []%elem_of_nil..].
  - destruct (check_cache c ids w) as [res miss].
    destruct (IH res miss eq_refl) as (Hlen & Hres & Hmiss).
    destruct (cache_hit w (cacheKey c i)) as [r|] eqn:Hhit; intros [= <- <-]; simpl.
    + split; [lia|]. split.
      * intros v [->|Hv]%elem_of_cons.
        -- exists i, r. split; [done|]. split; [apply list_elem_of_here|done].
        -- destruct (Hres v Hv) as (i' & r' & -> & Hi' & Hc').
           exists i', r'. split; [done|]. split; [by apply list_elem_of_further|done].
      * intros i' Hi'. apply list_elem_of_further. by apply Hmiss.
    + split; [lia|]. split.
      * intros v Hv. destruct (Hres v Hv) as (i' & r' & -> & Hi' & Hc').
        exists i', r'. split; [done|]. split; [by apply list_elem_of_further|done].
      * intros i' [->|Hi']%elem_of_cons; [apply list_elem_of_here|].
        apply list_elem_of_further. by apply Hmiss.
Qed.








(** * The rest of the accessor, and how its calls compose *)

(** ** The connection *)

Lemma opens_log o w : is_open o = false → opens (log o w) = opens w.
Proof.
  intros Ho. unfold opens, log. simpl.
  rewrite List.filter_app, length_app. simpl. rewrite Ho. simpl. lia.
Qed.

Lemma tx_put_keeps c v : keeps_connection (tx_put c v).
Proof.
  unfold keeps_connection, kept, tx_put, db_transaction. intros w Hconn.
  repeat case_match; simplify_eq/=; rewrite ?Hconn;
    (split; [done|]); unfold opens; simpl;
    rewrite <- ?app_assoc, List.filter_app, length_app; simpl; lia.
Qed.

Lemma tx_delete_keeps c k : keeps_connection (tx_delete c k).
Proof.
  unfold keeps_connection, kept, tx_delete, db_transaction. intros w Hconn.
  repeat case_match; simplify_eq/=; rewrite ?Hconn;
    (split; [done|]); unfold opens; simpl;
    rewrite <- ?app_assoc, List.filter_app, length_app; simpl; lia.
Qed.

Lemma tx_get_keeps c k : keeps_connection (tx_get c k).
Proof.
  unfold keeps_connection, kept, tx_get, db_transaction. intros w Hconn.
  repeat case_match; simplify_eq/=; rewrite ?Hconn;
    (split; [done|]); unfold opens; simpl;
    rewrite <- ?app_assoc, List.filter_app, length_app; simpl; lia.
Qed.

Lemma tx_count_keeps c : keeps_connection (tx_count c).
Proof.
  unfold keeps_connection, kept, tx_count, db_transaction. intros w Hconn.
  repeat case_match; simplify_eq/=; rewrite ?Hconn;
    (split; [done|]); unfold opens; simpl;
    rewrite <- ?app_assoc, List.filter_app, length_app; simpl; lia.
Qed.

Lemma openCursor_keeps c : keeps_connection (openCursor c).
Proof.
  unfold keeps_connection, kept, openCursor, db_transaction. intros w Hconn.
  repeat case_match; simplify_eq/=; rewrite ?Hconn;
    (split; [done|]); unfold opens; simpl;
    rewrite <- ?app_assoc, List.filter_app, length_app; simpl; lia.
Qed.

Lemma openCursorByDate_keeps c : keeps_connection (openCursorByDate c).
Proof.
  unfold keeps_connection, kept, openCursorByDate, db_transaction. intros w Hconn.
  repeat case_match; simplify_eq/=; rewrite ?Hconn;
    (split; [done|]); unfold opens; simpl;
    rewrite <- ?app_assoc, List.filter_app, length_app; simpl; lia.
Qed.

Lemma bulk_fetch_all_keeps c s ids :
  ∀ aborted w, dbConnection w = true →
    kept w (bulk_fetch_all c s ids aborted w).2.
Proof.
  unfold kept.
  induction ids as [|i ids IH]; intros aborted w Hconn; simpl; [done|].
  destruct (bulk_fetch c s i aborted w) as [[p aborted1] w1] eqn:Hone.
  assert (dbConnection w1 = true ∧ opens w1 = opens w) as [Hc1 Ho1].
  { unfold bulk_fetch in Hone. repeat case_match; simplify_eq/=;
      (split; [done|]); try done; unfold opens; simpl;
      rewrite List.filter_app, length_app; simpl; lia. }
  specialize (IH aborted1 w1 Hc1).
  destruct (bulk_fetch_all c s ids aborted1 w1) as [ps w2]. simpl in *.
  destruct IH as [? ?]. split; [done | congruence].
Qed.

Lemma cursor_Promise_snd {St A} (source : CursorSource)
    (h : option record → St → St * cursorAction A) init w :
  (cursor_Promise source h init w).2 = (source w).2.
Proof. unfold cursor_Promise. by repeat case_match. Qed.

Lemma kept_refl w : dbConnection w = true → kept w w.
Proof. by split. Qed.

(** X1: with the connection there, no call of the accessor opens the
    database again or loses the connection. *)
Theorem connection_kept w c v i j skip take ids bytes mime :
  dbConnection w = true →
  kept w (set c v w).2
  ∧ kept w (get c i w).2
  ∧ kept w (getRange c skip take w).2
  ∧ kept w (count c w).2
  ∧ kept w (getAllPagedByDate c skip take w).2
  ∧ kept w (deleteRecord c i w).2
  ∧ kept w (getBulk c ids w).2
  ∧ kept w (setImageBlob i bytes mime w).2
  ∧ kept w (getImageBytes i w).2
  ∧ kept w (copyIndexedDbFile i j w).2.
Proof.
  intros Hconn. pose proof (kept_refl w Hconn) as Hrefl.
  repeat split_and.
  - unfold set, Promise_reject.
    repeat case_match; try done.
    unfold try_await. rewrite (getDatabase_connected w Hconn).
    rewrite new_Promise_snd. by apply tx_put_keeps.
  - unfold get, Promise_reject.
    destruct (_ || _); [done|]. destruct (cache_hit _ _); [done|].
    unfold try_catch, try_await, await.
    rewrite (getDatabase_connected w Hconn).
    pose proof (tx_get_keeps c i w Hconn) as Hget.
    unfold new_Promise. destruct (tx_get c i w) as [[e|evs] w1]; simpl in *;
      repeat case_match; simplify_eq/=; done.
  - unfold getRange, try_await. rewrite (getDatabase_connected w Hconn).
    rewrite cursor_Promise_snd. by apply openCursor_keeps.
  - unfold count, try_await. rewrite (getDatabase_connected w Hconn).
    rewrite new_Promise_snd. by apply tx_count_keeps.
  - unfold getAllPagedByDate, try_await. rewrite (getDatabase_connected w Hconn).
    pose proof (openCursorByDate_keeps c w Hconn) as Hcur.
    destruct (openCursorByDate c w) as [[e|[index src]] w1]; simpl in *; [done|].
    by rewrite cursor_Promise_snd.
  - unfold deleteRecord, try_await. rewrite (getDatabase_connected w Hconn).
    rewrite new_Promise_snd. by apply tx_delete_keeps.
  - destruct ids as [|[|i0 ids]]; try done.
    change (getBulk c (IdsArray (i0 :: ids)))
      with (try_catch (getBulk_try c (i0 :: ids)) (fun _ => Promise_resolve [])).
    generalize (i0 :: ids) as all. intros all.
    unfold getBulk_try, try_catch, try_await, await, Promise_resolve.
    rewrite (getDatabase_connected w Hconn).
    destruct (check_cache c all w) as [results [|m0 missing]]; [done|].
    unfold db_transaction.
    assert (kept w (log (OpTransaction c ReadOnly) w)) as [Hc1 Ho1].
    { split; [done|]. by apply opens_log. }
    destruct (database w !! c) as [s|]; [|done].
    pose proof (bulk_fetch_all_keeps c s (m0 :: missing) false _ Hc1) as [Hc2 Ho2].
    destruct (bulk_fetch_all c s (m0 :: missing) false _) as [ps w2]. simpl in *.
    destruct (Promise_all ps); simpl; split; congruence.
  - unfold setImageBlob, Promise_reject.
    repeat case_match; try done.
    unfold await. rewrite (getDatabase_connected w Hconn).
    rewrite new_Promise_snd. by apply tx_put_keeps.
  - unfold getImageBytes, await. rewrite (getDatabase_connected w Hconn).
    rewrite new_Promise_snd. by apply tx_get_keeps.
  - unfold copyIndexedDbFile, await, db_transaction.
    rewrite (getDatabase_connected w Hconn).
    repeat case_match; simplify_eq/=; (split; [done|]); unfold opens; simpl;
      rewrite <- ?app_assoc, List.filter_app, length_app; simpl; lia.
Qed.

Lemma connection_kept_witness :
  opens (get "Mosaic" (IdStr "b") stale_world).2 = 1%nat
  ∧ opens (getBulk "Mosaic" (IdsArray [IdStr "b"; IdStr "c"]) stale_world).2 = 1%nat.
Proof.
  destruct (connection_kept stale_world "Mosaic" Undefined (IdStr "b") (IdStr "c") 0 0
              (IdsArray [IdStr "b"; IdStr "c"]) None None)
    as (_ & [_ Hget] & _ & _ & _ & _ & [_ Hbulk] & _); [by vm_compute|].
  split; [by rewrite Hget | by rewrite Hbulk].
Defined.

(** ** get *)

(** A miss in a world that can connect: the store is read, and only a
    record that was found is cached. *)
Lemma get_miss_connectable w c i s :
  c ≠ "" → valid_key i = true →
  cache_hit w (cacheKey c i) = None →
  connectable w →
  database w !! c = Some s →
  faults w (OpGet c i) = None →
  get c i w =
    let w2 := log (OpGet c i) (log (OpTransaction c ReadOnly) (getDatabase w).2) in
    match store_get i (records s) with
    | Some r => (Resolved (Obj r), cache_store (cacheKey c i) r w2)
    | None => (Resolved Undefined, w2)
    end.
Proof.
  intros Hc Hk Hmiss Hconn Hs Hf. unfold get.
  apply str_truthy_true in Hc. rewrite Hc. simpl.
  assert (match i with IdUndefined => true | _ => false end = false) as ->
    by (by destruct i).
  rewrite Hmiss.
  unfold try_catch, try_await, await, new_Promise, tx_get, db_transaction.
  destruct (getDatabase_connectable w Hconn) as (w1 & -> & _ & Hd & _ & _ & Hfl).
  rewrite Hd, Hs, Hk, Hfl. simpl. rewrite Hf. simpl.
  unfold lookup_result. by destruct (store_get i (records s)).
Qed.

(** X2: a [get] of an id the store does not hold resolves with [undefined]
    and caches nothing, so the next [get] of that id reads the store
    again. *)
Theorem get_absent_not_cached w c i s :
  c ≠ "" → valid_key i = true →
  cache_hit w (cacheKey c i) = None →
  connectable w →
  database w !! c = Some s →
  faults w (OpGet c i) = None →
  store_get i (records s) = None →
  (get c i w).1 = Resolved Undefined
  ∧ memoryCache (get c i w).2 = memoryCache w
  ∧ new_calls (get c i w).2 (get c i (get c i w).2).2
    = [OpTransaction c ReadOnly; OpGet c i].
Proof.
  intros Hc Hk Hmiss Hconn Hs Hf Hnone.
  rewrite (get_miss_connectable w c i s) by done. rewrite Hnone. cbn zeta.
  destruct (getDatabase_connectable w Hconn) as (w1 & Hdb & Hc1 & Hd & Hm & Hcl & Hfl).
  rewrite Hdb. cbn [fst snd].
  split; [done|]. split; [done|].
  rewrite (get_miss_read _ c i s); try done.
  - rewrite Hnone. unfold new_calls. simpl.
    match goal with |- drop (length ?X) _ = _ => rewrite <- (app_assoc X) end.
    by rewrite drop_app_length.
  - unfold cache_hit in *. simpl. by rewrite Hm, Hcl.
  - simpl. by rewrite Hd.
  - simpl. by rewrite Hfl.
Qed.

Lemma get_absent_not_cached_witness :
  (get "Mosaic" (IdStr "zz") (mosaic_world [photo "a" 1 "x"])).1 = Resolved Undefined
  ∧ memoryCache (get "Mosaic" (IdStr "zz") (mosaic_world [photo "a" 1 "x"])).2 = ∅.
Proof.
  destruct (get_absent_not_cached (mosaic_world [photo "a" 1 "x"]) "Mosaic" (IdStr "zz")
              {| records := [photo "a" 1 "x"]; indexNames := [] |})
    as (Hres & Hcache & _); try done; by right.
Defined.

Lemma getDatabase_database w : database (getDatabase w).2 = database w.
Proof. unfold getDatabase. by repeat case_match. Qed.

Lemma tx_get_frame c k w :
  database (tx_get c k w).2 = database w ∧ memoryCache (tx_get c k w).2 = memoryCache w.
Proof. unfold tx_get, db_transaction. repeat case_match; simplify_eq/=; done. Qed.

(** X3: [get] never writes the database; in the cache it touches no key but
    the one of the id asked for, and when it rejects it has not touched the
    cache at all. *)
Theorem get_touches_own_key w c i :
  database (get c i w).2 = database w
  ∧ (∀ k, k ≠ cacheKey c i → memoryCache (get c i w).2 !! k = memoryCache w !! k)
  ∧ (∀ e, (get c i w).1 = Rejected e → memoryCache (get c i w).2 = memoryCache w).
Proof.
  unfold get, Promise_reject.
  destruct (_ || _); [done|]. destruct (cache_hit _ _); [done|].
  unfold try_catch, try_await, await, Promise_resolve, Promise_reject.
  pose proof (getDatabase_same_cache w) as (Hm & _ & _).
  pose proof (getDatabase_database w) as Hd.
  destruct (getDatabase w) as [[| [] |e0] w1] eqn:Hdb; simpl in *.
  - repeat split; try done. intros. by rewrite Hm.
  - pose proof (tx_get_frame c i w1) as [Hd2 Hm2].
    rewrite <- (new_Promise_snd (tx_get c i) get_handlers) in Hd2, Hm2.
    destruct (new_Promise (tx_get c i) get_handlers w1) as [[|[| |r]|e] w2];
      simpl in *; repeat split; try congruence; try done;
      intros; rewrite ?lookup_insert_ne by done; congruence.
  - repeat split; try done. intros. by rewrite Hm.
Qed.

(** ** deleteRecord *)

Lemma store_get_delete k l : store_get k (store_delete k l) = None.
Proof.
  unfold store_get, store_delete.
  induction l as [|x l IH]; simpl; [done|].
  destruct (key_eqb k (rec_id x)) eqn:E; simpl; [done|]. by rewrite E.
Qed.

(** A [deleteRecord] that resolves: what the world had to be, and what the
    call leaves behind. *)
Lemma deleteRecord_resolved_inv w c i b :
  (deleteRecord c i w).1 = Resolved b →
  ∃ s w1, b = true ∧ valid_key i = true
    ∧ getDatabase w = (Resolved tt, w1)
    ∧ database w !! c = Some s
    ∧ faults w (OpDelete c i) = None
    ∧ (deleteRecord c i w).2 =
        let w2 := log (OpDelete c i) (log (OpTransaction c ReadWrite) w1) in
        match faults w (OpCommit c) with
        | Some _ => w2
        | None =>
            set_database
              (<[c := {| records := store_delete i (records s);
                         indexNames := indexNames s |}]> (database w)) w2
        end.
Proof.
  unfold deleteRecord, try_await, new_Promise, tx_delete, db_transaction, Promise_reject.
  pose proof (getDatabase_same_cache w) as (_ & _ & Hfl).
  destruct (getDatabase w) as [[| [] |] w1] eqn:Hdb; simpl in *; try done.
  apply getDatabase_resolved in Hdb as Hdb'. destruct Hdb' as (_ & _ & Hd & _).
  rewrite Hd, Hfl.
  destruct (database w !! c) as [s|] eqn:Hs; simpl; [|done].
  destruct (valid_key i) eqn:Hk; simpl; [|done].
  destruct (faults w (OpDelete c i)) eqn:Hf; simpl; [done|].
  destruct (faults w (OpCommit c)) eqn:Hcm; simpl; intros [= <-]; exists s, w1;
    by rewrite ?Hd.
Qed.

(** X4: after a [deleteRecord] whose transaction commits, a [get] of that
    id that does not find it in the cache resolves with [undefined]. *)
Theorem deleteRecord_then_get w c i :
  (deleteRecord c i w).1 = Resolved true →
  faults w (OpCommit c) = None →
  c ≠ "" →
  cache_hit w (cacheKey c i) = None →
  faults w (OpGet c i) = None →
  (get c i (deleteRecord c i w).2).1 = Resolved Undefined.
Proof.
  intros Hdel Hcm Hc Hmiss Hf.
  pose proof (deleteRecord_same_cache c i w) as Hsame.
  destruct (deleteRecord_resolved_inv _ _ _ _ Hdel)
    as (s & w1 & _ & Hk & Hdb & Hs & _ & Hw).
  rewrite Hcm in Hw. cbn zeta in Hw.
  apply getDatabase_resolved in Hdb as (_ & Hconn & _ & _).
  rewrite (get_miss_read _ c i
             {| records := store_delete i (records s); indexNames := indexNames s |});
    try done.
  - simpl. by rewrite store_get_delete.
  - by rewrite (same_cache_hit w).
  - by rewrite Hw.
  - rewrite Hw. simpl. by rewrite lookup_insert_eq.
  - destruct Hsame as (_ & _ & ->). done.
Qed.

Lemma deleteRecord_then_get_witness :
  (get "Mosaic" (IdStr "a")
     (deleteRecord "Mosaic" (IdStr "a") (mosaic_world [photo "a" 1 "x"; photo "b" 2 "y"])).2).1
  = Resolved Undefined.
Proof.
  apply (deleteRecord_then_get (mosaic_world [photo "a" 1 "x"; photo "b" 2 "y"])
           "Mosaic" (IdStr "a")); by vm_compute.
Defined.

(** X5: [deleteRecord] resolves with [true] as soon as the delete request is
    acknowledged; when the transaction then fails to commit, the caller has
    been told [true], the database is unchanged and the record is still
    what an uncached [get] reads. *)
Theorem deleteRecord_resolves_before_commit w c i s r e :
  connectable w →
  database w !! c = Some s →
  valid_key i = true →
  faults w (OpDelete c i) = None →
  faults w (OpCommit c) = Some e →
  store_get i (records s) = Some r →
  (deleteRecord c i w).1 = Resolved true
  ∧ database (deleteRecord c i w).2 = database w
  ∧ (c ≠ "" → cache_hit w (cacheKey c i) = None → faults w (OpGet c i) = None →
     (get c i (deleteRecord c i w).2).1 = Resolved (Obj r)).
Proof.
  intros Hconn Hs Hk Hf Hcm Hr.
  pose proof (deleteRecord_same_cache c i w) as Hsame.
  assert ((deleteRecord c i w).1 = Resolved true) as Hres.
  { unfold deleteRecord, try_await, new_Promise, tx_delete, db_transaction.
    destruct (getDatabase_connectable w Hconn) as (w1 & -> & _ & Hd & _ & _ & Hfl).
    by rewrite Hd, Hs, Hk, Hfl, Hf, Hcm. }
  destruct (deleteRecord_resolved_inv _ _ _ _ Hres)
    as (s' & w1 & _ & _ & Hdb & Hs' & _ & Hw).
  rewrite Hcm in Hw. cbn zeta in Hw.
  apply getDatabase_resolved in Hdb as (_ & Hc1 & Hd & _).
  split; [done|]. split; [by rewrite Hw|].
  intros Hc Hmiss Hget.
  rewrite (get_miss_read _ c i s); try done.
  - by rewrite Hr.
  - by rewrite (same_cache_hit w).
  - by rewrite Hw.
  - rewrite Hw. simpl. by rewrite Hd.
  - destruct Hsame as (_ & _ & ->). done.
Qed.

Lemma deleteRecord_resolves_before_commit_witness :
  (deleteRecord "Mosaic" (IdStr "a") commit_fault_world).1 = Resolved true
  ∧ database (deleteRecord "Mosaic" (IdStr "a") commit_fault_world).2
    = database commit_fault_world.
Proof.
  destruct (deleteRecord_resolves_before_commit commit_fault_world "Mosaic" (IdStr "a")
              {| records := [photo "a" 1 "old"]; indexNames := [] |} (photo "a" 1 "old")
              (DOMException "QuotaExceededError"))
    as (Hres & Hdb & _); try done; by right.
Defined.

(** ** clearCache and closeDatabase between calls *)

(** X6: clearing the cache of the collection (or the whole cache) after a
    [set] makes the next [get] of that id read the store and give the
    record written, whatever was cached before. *)
Theorem clearCache_then_get w c r :
  (set c (Obj r) w).1 = Resolved true →
  faults w (OpGet c (rec_id r)) = None →
  (get c (rec_id r) (clearCache (Some c) (set c (Obj r) w).2)).1 = Resolved (Obj r)
  ∧ (get c (rec_id r) (clearCache None (set c (Obj r) w).2)).1 = Resolved (Obj r).
Proof.
  intros Hset Hget.
  pose proof (set_same_cache c (Obj r) w) as (_ & _ & Hfl).
  destruct (set_resolved_inv _ _ _ _ Hset)
    as (r' & s & w1 & [= <-] & _ & Hc & Hid & Hk & Hdb & Hs & _ & _ & Hw).
  apply getDatabase_resolved in Hdb as (_ & Hconn & _ & _).
  assert (∀ o, dbConnection (clearCache o (set c (Obj r) w).2) = true
               ∧ database (clearCache o (set c (Obj r) w).2) !! c
                 = Some {| records := store_put r (records s); indexNames := indexNames s |}
               ∧ faults (clearCache o (set c (Obj r) w).2) = faults w) as Hcleared.
  { intros o. unfold clearCache. repeat case_match; simpl; rewrite Hfl, Hw; simpl;
      by rewrite lookup_insert_eq. }
  split.
  - destruct (Hcleared (Some c)) as (H1 & H2 & H3).
    rewrite (get_miss_read _ c (rec_id r)
               {| records := store_put r (records s); indexNames := indexNames s |} Hc Hk);
      try done.
    + simpl. by rewrite store_get_put.
    + unfold cache_hit. rewrite lookup_clearCache by done.
      unfold cacheKey. by rewrite prefix_append_sep.
    + by rewrite H3.
  - destruct (Hcleared None) as (H1 & H2 & H3).
    rewrite (get_miss_read _ c (rec_id r)
               {| records := store_put r (records s); indexNames := indexNames s |} Hc Hk);
      try done.
    + simpl. by rewrite store_get_put.
    + by rewrite H3.
Qed.

Lemma clearCache_then_get_witness :
  (get "Mosaic" (IdStr "a")
     (clearCache (Some "Mosaic") (set "Mosaic" (Obj (photo "a" 1 "new")) stale_world).2)).1
  = Resolved (Obj (photo "a" 1 "new")).
Proof.
  apply (clearCache_then_get stale_world "Mosaic" (photo "a" 1 "new")); by vm_compute.
Defined.

(** X7: [closeDatabase] forgets the connection and leaves the cache alone: a
    cached id is still answered, without any call to IndexedDB, and the
    first call that needs the database opens it again. *)
Theorem closeDatabase_keeps_cache w :
  dbConnection (closeDatabase w) = false
  ∧ memoryCache (closeDatabase w) = memoryCache w
  ∧ database (closeDatabase w) = database w
  ∧ (∀ c i r, c ≠ "" → i ≠ IdUndefined → cache_hit w (cacheKey c i) = Some r →
       get c i (closeDatabase w) = (Resolved (Obj r), closeDatabase w))
  ∧ new_calls (closeDatabase w) (getDatabase (closeDatabase w)).2 = [OpOpen].
Proof.
  assert (dbConnection (closeDatabase w) = false ∧ memoryCache (closeDatabase w) = memoryCache w
          ∧ database (closeDatabase w) = database w ∧ clock (closeDatabase w) = clock w)
    as (Hc & Hm & Hd & Hcl).
  { unfold closeDatabase. by destruct (dbConnection w) eqn:E. }
  split; [done|]. split; [done|]. split; [done|]. split.
  - intros c i r Hne Hi Hhit. apply get_hit; try done.
    unfold cache_hit in *. by rewrite Hm, Hcl.
  - unfold getDatabase, new_calls. rewrite Hc.
    destruct (faults _ OpOpen); simpl; by rewrite drop_app_length.
Qed.

Lemma closeDatabase_keeps_cache_witness :
  get "Mosaic" (IdStr "a") (closeDatabase stale_world)
  = (Resolved (Obj (photo "a" 1 "old")), closeDatabase stale_world).
Proof.
  destruct (closeDatabase_keeps_cache stale_world) as (_ & _ & _ & Hget & _).
  apply Hget; by vm_compute.
Defined.

(** ** Paging *)

Lemma getDatabase_same_database w : same_database w (getDatabase w).2.
Proof.
  unfold same_database, getDatabase, connectable.
  destruct (dbConnection w) eqn:Hc; [split; [done|]; split; [done|]; tauto|].
  destruct (faults w OpOpen) eqn:Hf; simpl; (split; [done|]); (split; [done|]).
  - intros [?|?]; congruence.
  - by left.
Qed.

Lemma getRange_same_database c skip take w : same_database w (getRange c skip take w).2.
Proof.
  unfold getRange, try_await, Promise_reject.
  pose proof (getDatabase_same_database w) as (Hd & Hf & Hc).
  destruct (getDatabase w) as [[| [] |e] w1]; simpl in *; try done.
  rewrite cursor_Promise_snd. unfold openCursor, db_transaction, same_database, connectable in *.
  repeat case_match; simplify_eq/=; done.
Qed.

Lemma getRange_resolves w c s skip take :
  connectable w →
  database w !! c = Some s →
  faults w (OpOpenCursor c) = None →
  (getRange c skip take w).1
  = Resolved (firstn (Z.to_nat take) (skipn (Z.to_nat skip) (records s))).
Proof.
  intros Hconn Hs Hf.
  unfold getRange, try_await, cursor_Promise, openCursor, db_transaction.
  destruct (getDatabase_connectable w Hconn) as (w1 & -> & _ & Hd & _ & _ & Hfl).
  rewrite Hd, Hs, Hfl, Hf. simpl. apply getRange_iterate.
Qed.

(** X8: consecutive pages of [getRange] fit together: the page of [a]
    records from [skip] followed by the page of [b] records from
    [skip + a], read one after the other, is the page of [a + b] records
    from [skip]. *)
Theorem getRange_pages_compose w c s skip a b :
  connectable w →
  database w !! c = Some s →
  faults w (OpOpenCursor c) = None →
  0 ≤ skip → 0 ≤ a → 0 ≤ b →
  ∃ p1 p2,
    (getRange c skip a w).1 = Resolved p1
    ∧ (getRange c (skip + a) b (getRange c skip a w).2).1 = Resolved p2
    ∧ (getRange c skip (a + b) w).1 = Resolved (p1 ++ p2).
Proof.
  intros Hconn Hs Hf Hskip Ha Hb.
  destruct (getRange_same_database c skip a w) as (Hd & Hfl & Hc).
  eexists _, _. split; [by apply (getRange_resolves w c s)|]. split.
  - apply (getRange_resolves _ c s); [by apply Hc | by rewrite Hd | by rewrite Hfl].
  - rewrite (getRange_resolves w c s) by done. f_equal.
    replace (Z.to_nat (skip + a)) with (Z.to_nat skip + Z.to_nat a)%nat by lia.
    replace (Z.to_nat (a + b)) with (Z.to_nat a + Z.to_nat b)%nat by lia.
    by rewrite <- drop_drop, take_take_drop.
Qed.

Lemma getRange_pages_compose_witness :
  (getRange "Mosaic" 1 3
     (mosaic_world [photo "a" 1 "x"; photo "b" 2 "y"; photo "c" 3 "z"; photo "d" 4 "u"])).1
  = Resolved ([photo "b" 2 "y"] ++ [photo "c" 3 "z"; photo "d" 4 "u"]).
Proof.
  destruct (getRange_pages_compose
              (mosaic_world [photo "a" 1 "x"; photo "b" 2 "y"; photo "c" 3 "z"; photo "d" 4 "u"])
              "Mosaic"
              {| records := [photo "a" 1 "x"; photo "b" 2 "y"; photo "c" 3 "z"; photo "d" 4 "u"];
                 indexNames := [] |} 1 1 2)
    as (p1 & p2 & H1 & H2 & H3); [by right | done | done | lia | lia | lia |].
  vm_compute in H1, H2. injection H1 as <-. injection H2 as <-. exact H3.
Defined.

Lemma getAllPagedByDate_resolves w c s skip take :
  connectable w →
  database w !! c = Some s →
  faults w (cursor_call c s) = None →
  (getAllPagedByDate c skip take w).1
  = Resolved
      (let rest := skipn (Z.to_nat skip) (cursor_records s) in
       if Z.of_nat (length rest) <? Z.max 1 take
       then slice0 take (sorted_unless (has_index "UploadDate" s) rest)
       else firstn (Z.to_nat (Z.max 1 take)) rest).
Proof.
  intros Hconn Hs Hf.
  unfold getAllPagedByDate, try_await, cursor_Promise, openCursorByDate, db_transaction.
  destruct (getDatabase_connectable w Hconn) as (w1 & -> & _ & Hd & _ & _ & Hfl).
  unfold cursor_call, cursor_records in *.
  rewrite Hd, Hs, Hfl.
  destruct (has_index "UploadDate" s); rewrite Hf; cbn [fst snd];
    by rewrite getAllPagedByDate_iterate.
Qed.

(** X9: asked for no records ([take] zero or below), [getAllPagedByDate]
    still resolves with one, the first after the skip, whenever there is
    one: the handler pushes before it compares [items.length] with
    [take]. *)
Theorem getAllPagedByDate_take_zero w c s skip take x rest :
  connectable w →
  database w !! c = Some s →
  faults w (cursor_call c s) = None →
  take ≤ 0 →
  skipn (Z.to_nat skip) (cursor_records s) = x :: rest →
  (getAllPagedByDate c skip take w).1 = Resolved [x].
Proof.
  intros Hconn Hs Hf Htake Hrest.
  rewrite (getAllPagedByDate_resolves w c s) by done. cbn zeta. rewrite Hrest.
  destruct (Z.ltb_spec (Z.of_nat (length (x :: rest))) (Z.max 1 take)) as [H|H].
  - simpl in H. lia.
  - by replace (Z.to_nat (Z.max 1 take)) with 1%nat by lia.
Qed.

Lemma getAllPagedByDate_take_zero_witness :
  (getAllPagedByDate "Mosaic" 0 0 (mosaic_world [photo "a" 1 "x"; photo "b" 2 "y"])).1
  = Resolved [photo "a" 1 "x"].
Proof.
  apply (getAllPagedByDate_take_zero (mosaic_world [photo "a" 1 "x"; photo "b" 2 "y"])
           "Mosaic" {| records := [photo "a" 1 "x"; photo "b" 2 "y"]; indexNames := [] |}
           0 0 (photo "a" 1 "x") [photo "b" 2 "y"]); [by right | done | done | lia | done].
Defined.



(** *** The store cursor when it runs out *)

Lemma sort_insert_perm cmp x l : sort_insert cmp x l ≡ₚ x :: l.
Proof.
  induction l as [|y l IH]; simpl; [done|].
  destruct (cmp y x) as [z|]; [destruct (0 <? z); [done|]|];
    rewrite IH; apply Permutation_swap.
Qed.

Lemma Array_sort_perm cmp l : Array_sort cmp l ≡ₚ l.
Proof.
  unfold Array_sort.
  assert (∀ acc, fold_left (fun acc x => sort_insert cmp x acc) l acc ≡ₚ acc ++ l) as H.
  { induction l as [|x l IH]; intros acc; simpl; [by rewrite app_nil_r|].
    rewrite IH, sort_insert_perm. simpl. apply Permutation_middle. }
  apply H.
Qed.

Lemma sort_insert_newest_first x d l :
  rec_UploadDate x = Some d →
  newest_first l → Forall dated l →
  newest_first (sort_insert by_date_desc x l) ∧ Forall dated (sort_insert by_date_desc x l).
Proof.
  intros Hx. induction l as [|y rest IH]; intros Hsorted Hdated.
  - simpl. split; [done|]. constructor; [unfold dated; rewrite Hx; eauto|done].
  - inversion Hdated as [|? ? [dy Hy] Hrest]; subst. simpl.
    assert (by_date_desc y x = Some (d - dy)) as -> by (unfold by_date_desc; by rewrite Hx, Hy).
    destruct (Z.ltb_spec 0 (d - dy)) as [Hlt|Hge].
    + split.
      * apply newest_first_cons. split; [rewrite Hx, Hy; lia|done].
      * constructor; [unfold dated; rewrite Hx; eauto|done].
    + destruct (IH (newest_first_tail _ _ Hsorted) Hrest) as (IHs & IHd).
      split; [|constructor; [unfold dated; rewrite Hy; eauto|done]].
      apply newest_first_cons. split; [|done].
      destruct rest as [|y' rest'].
      * simpl. rewrite Hy, Hx. lia.
      * apply newest_first_cons in Hsorted as [Hyy _]. rewrite Hy in Hyy.
        simpl. destruct (rec_UploadDate y') as [dy'|] eqn:Hy'; [|done].
        assert (by_date_desc y' x = Some (d - dy')) as ->
          by (unfold by_date_desc; by rewrite Hx, Hy').
        destruct (0 <? d - dy'); rewrite Hy, ?Hx, ?Hy'; lia.
Qed.

Lemma Array_sort_newest_first l :
  Forall dated l → newest_first (Array_sort by_date_desc l).
Proof.
  unfold Array_sort.
  assert (∀ acc, newest_first acc → Forall dated acc → Forall dated l →
                 newest_first (fold_left (fun acc x => sort_insert by_date_desc x acc) l acc))
    as H.
  { induction l as [|x l IH]; intros acc Hs Hd Hl; simpl; [done|].
    inversion Hl as [|? ? [d Hx] Hl']; subst.
    destruct (sort_insert_newest_first x d acc Hx Hs Hd). by apply IH. }
  intros Hl. apply H; [done | constructor | done].
Qed.

(** X11: without the [UploadDate] index, when fewer than [take] records are
    left after the skip, the cursor runs out and the page is those records,
    all of them, sorted into non-increasing date order (every one of them
    having a valid date).  The skip has already been taken in key order. *)
Theorem getAllPagedByDate_store_sorted w c s skip take :
  connectable w →
  database w !! c = Some s →
  has_index "UploadDate" s = false →
  faults w (OpOpenCursor c) = None →
  Forall dated (skipn (Z.to_nat skip) (records s)) →
  Z.of_nat (length (skipn (Z.to_nat skip) (records s))) < Z.max 1 take →
  ∃ items,
    (getAllPagedByDate c skip take w).1 = Resolved items
    ∧ items ≡ₚ skipn (Z.to_nat skip) (records s)
    ∧ newest_first items.
Proof.
  intros Hconn Hs Hi Hf Hdated Hlen.
  exists (Array_sort by_date_desc (skipn (Z.to_nat skip) (records s))).
  split; [|split; [apply Array_sort_perm | by apply Array_sort_newest_first]].
  rewrite (getAllPagedByDate_resolves w c s); try done.
  2:{ unfold cursor_call. by rewrite Hi. }
  unfold cursor_records. rewrite Hi. cbn zeta.
  destruct (Z.ltb_spec (Z.of_nat (length (skipn (Z.to_nat skip) (records s))))
              (Z.max 1 take)) as [_|H]; [|lia].
  unfold sorted_unless, slice0.
  pose proof (Permutation_length (Array_sort_perm by_date_desc
                                    (skipn (Z.to_nat skip) (records s)))) as Hperm.
  destruct (Z.leb_spec 0 take).
  - f_equal. apply firstn_all2. lia.
  - assert (skipn (Z.to_nat skip) (records s) = []) as ->
      by (apply length_zero_iff_nil; lia).
    f_equal. apply firstn_nil.
Qed.

Lemma getAllPagedByDate_store_sorted_witness :
  ∃ items,
    (getAllPagedByDate "Mosaic" 1 5
       (mosaic_world [photo "a" 9 "x"; photo "b" 2 "y"; photo "c" 7 "z"])).1 = Resolved items
    ∧ items ≡ₚ [photo "b" 2 "y"; photo "c" 7 "z"]
    ∧ newest_first items.
Proof.
  apply (getAllPagedByDate_store_sorted
           (mosaic_world [photo "a" 9 "x"; photo "b" 2 "y"; photo "c" 7 "z"]) "Mosaic"
           {| records := [photo "a" 9 "x"; photo "b" 2 "y"; photo "c" 7 "z"];
              indexNames := [] |} 1 5);
    [by right | done | done | done | | simpl; lia].
  repeat constructor; by eexists.
Defined.

(** ** getBulk *)

Lemma bulk_fetch_settled c s i aborted w :
  (bulk_fetch c s i aborted w).1.1 ≠ Pending.
Proof. unfold bulk_fetch. repeat case_match; simplify_eq/=; done. Qed.

Lemma bulk_fetch_all_settled c s ids :
  ∀ aborted w, Forall (fun p => p ≠ Pending) (bulk_fetch_all c s ids aborted w).1.
Proof.
  induction ids as [|i ids IH]; intros aborted w; simpl; [constructor|].
  pose proof (bulk_fetch_settled c s i aborted w) as Hp.
  destruct (bulk_fetch c s i aborted w) as [[p aborted1] w1].
  specialize (IH aborted1 w1).
  destruct (bulk_fetch_all c s ids aborted1 w1) as [ps w2]. simpl in *.
  by constructor.
Qed.

Lemma Promise_all_settled {A} (ps : list (promise A)) :
  Forall (fun p => p ≠ Pending) ps → Promise_all ps ≠ Pending.
Proof.
  induction ps as [|p ps IH]; intros Hall; simpl; [done|].
  inversion Hall as [|? ? Hp Hps]; subst. specialize (IH Hps).
  destruct p, (Promise_all ps); done.
Qed.

(** X12: [getBulk] always resolves: whatever the arguments, the state of the
    database and the faults of the browser, it neither rejects nor stays
    pending. *)
Theorem getBulk_always_resolves w c ids :
  ∃ l, (getBulk c ids w).1 = Resolved l.
Proof.
  destruct ids as [|[|i0 ids]]; [by eexists..|].
  change (getBulk c (IdsArray (i0 :: ids)))
    with (try_catch (getBulk_try c (i0 :: ids)) (fun _ => Promise_resolve [])).
  generalize (i0 :: ids) as all. intros all.
  unfold getBulk_try, try_catch, try_await, await, Promise_resolve.
  assert ((getDatabase w).1 ≠ Pending) as Hdb
    by (unfold getDatabase; by repeat case_match).
  destruct (getDatabase w) as [[| [] |e] w0]; simpl in *; [done| |by eexists].
  destruct (check_cache c all w0) as [results [|m0 missing]]; [by eexists|].
  unfold db_transaction.
  destruct (database w0 !! c) as [s|]; [|by eexists].
  pose proof (bulk_fetch_all_settled c s (m0 :: missing) false
                (log (OpTransaction c ReadOnly) w0)) as Hps.
  apply Promise_all_settled in Hps.
  destruct (bulk_fetch_all c s (m0 :: missing) false _) as [ps w2]. simpl in *.
  destruct (Promise_all ps); [done | by eexists | by eexists].
Qed.

Lemma check_cache_same c ids w w' :
  same_cache w w' → check_cache c ids w' = check_cache c ids w.
Proof.
  intros Hsame. induction ids as [|i ids IH]; simpl; [done|].
  by rewrite IH, (same_cache_hit w w').
Qed.

Lemma check_cache_length c ids w :
  (length (check_cache c ids w).1 + length (check_cache c ids w).2 = length ids)%nat.
Proof.
  destruct (check_cache c ids w) as [results missing] eqn:H.
  by destruct (check_cache_spec _ _ _ _ _ H) as (? & _).
Qed.

Lemma check_cache_missing c ids w i :
  i ∈ (check_cache c ids w).2 → i ∈ ids ∧ cache_hit w (cacheKey c i) = None.
Proof.
  induction ids as [|j ids IH]; simpl; [by intros []%elem_of_nil|].
  destruct (check_cache c ids w) as [res miss]. simpl in *.
  destruct (cache_hit w (cacheKey c j)) as [r|] eqn:Hj; simpl.
  - intros Hi. destruct (IH Hi). split; [by apply list_elem_of_further|done].
  - intros [->|Hi]%elem_of_cons.
    + split; [apply list_elem_of_here|done].
    + destruct (IH Hi). split; [by apply list_elem_of_further|done].
Qed.

Lemma Promise_all_Resolved {A} (l : list A) : Promise_all (map Resolved l) = Resolved l.
Proof. induction l as [|a l IH]; simpl; [done|]. by rewrite IH. Qed.

Lemma bulk_fetch_faults c s i aborted w :
  faults (bulk_fetch c s i aborted w).2 = faults w.
Proof. unfold bulk_fetch. repeat case_match; simplify_eq/=; done. Qed.

(** With valid keys and no failing request every fetch resolves with what
    the store holds under the id, [undefined] when that is nothing. *)
Lemma bulk_fetch_all_no_fault c s ids :
  ∀ w,
    Forall (fun i => valid_key i = true) ids →
    (∀ i, i ∈ ids → faults w (OpGet c i) = None) →
    (bulk_fetch_all c s ids false w).1 = map (fun i => Resolved (lookup_result i s)) ids.
Proof.
  induction ids as [|i ids IH]; intros w Hvalid Hf; simpl; [done|].
  inversion Hvalid as [|? ? Hk Hvalid']; subst.
  pose proof (bulk_fetch_faults c s i false w) as Hfl.
  assert ((bulk_fetch c s i false w).1 = (Resolved (lookup_result i s), false)) as Hone.
  { unfold bulk_fetch. rewrite Hk, (Hf i) by apply list_elem_of_here. simpl.
    by destruct (lookup_result i s). }
  destruct (bulk_fetch c s i false w) as [[p aborted1] w1]. simpl in *.
  injection Hone as -> ->.
  specialize (IH w1 Hvalid').
  destruct (bulk_fetch_all c s ids false w1) as [ps w2]. simpl in *.
  rewrite IH; [done|]. intros j Hj. rewrite Hfl. apply Hf. by apply list_elem_of_further.
Qed.

Lemma not_null_lookup_results s (ids : list idval) :
  List.filter not_null (map (fun i => lookup_result i s) ids)
  = map (fun i => lookup_result i s) ids.
Proof.
  induction ids as [|i ids IH]; simpl; [done|].
  rewrite IH. unfold lookup_result. by destruct (store_get i (records s)).
Qed.

(** X13: when every id is a valid key and no fetch fails, the result of
    [getBulk] has exactly one entry for each id passed: first the cached
    records of the ids found in the cache, then, for the remaining ids in
    the order given, what the store holds, which is [undefined] for an id
    it does not hold. *)
Theorem getBulk_one_entry_per_id w c s ids :
  connectable w →
  database w !! c = Some s →
  Forall (fun i => valid_key i = true) ids →
  (∀ i, i ∈ ids → faults w (OpGet c i) = None) →
  ∃ l,
    (getBulk c (IdsArray ids) w).1 = Resolved l
    ∧ l = (check_cache c ids w).1
          ++ map (fun i => lookup_result i s) (check_cache c ids w).2
    ∧ length l = length ids.
Proof.
  intros Hconn Hs Hvalid Hf.
  eexists. split; [|split; [reflexivity|]].
  2:{ rewrite length_app, length_map. apply check_cache_length. }
  destruct ids as [|i0 ids]; [done|].
  change (getBulk c (IdsArray (i0 :: ids)))
    with (try_catch (getBulk_try c (i0 :: ids)) (fun _ => Promise_resolve [])).
  revert Hvalid Hf. generalize (i0 :: ids) as all. intros all Hvalid Hf.
  unfold getBulk_try, try_catch, try_await, await, Promise_resolve.
  destruct (getDatabase_connectable w Hconn) as (w0 & -> & _ & Hd & Hsame).
  rewrite (check_cache_same c all w w0 Hsame).
  pose proof (check_cache_missing c all w) as Hmiss.
  destruct (check_cache c all w) as [results [|m0 missing]]; cbn [fst snd] in *.
  { by rewrite app_nil_r. }
  remember (m0 :: missing) as miss eqn:Hm0.
  unfold db_transaction. rewrite Hd, Hs.
  destruct Hsame as (_ & _ & Hfl).
  pose proof (bulk_fetch_all_no_fault c s miss
                (log (OpTransaction c ReadOnly) w0)) as Hfetch.
  destruct (bulk_fetch_all c s miss false _) as [ps w2]. cbn [fst snd] in *.
  rewrite Hfetch.
  - rewrite <- (map_map (fun i => lookup_result i s) Resolved), Promise_all_Resolved.
    rewrite not_null_lookup_results. by subst miss.
  - apply Forall_forall. intros i Hi.
    rewrite Forall_forall in Hvalid. apply Hvalid. by apply Hmiss.
  - intros i Hi. cbn [faults log]. rewrite Hfl. apply Hf. by apply Hmiss.
Qed.

Lemma getBulk_one_entry_per_id_witness :
  (getBulk "Mosaic" (IdsArray [IdStr "b"; IdStr "zz"; IdStr "a"])
     (set "Mosaic" (Obj (photo "b" 2 "y")) stale_world).2).1
  = Resolved [Obj (photo "a" 1 "old"); Obj (photo "b" 2 "y"); Undefined].
Proof.
  destruct (getBulk_one_entry_per_id
              (set "Mosaic" (Obj (photo "b" 2 "y")) stale_world).2 "Mosaic"
              {| records := [photo "a" 1 "old"; photo "b" 2 "y"]; indexNames := [] |}
              [IdStr "b"; IdStr "zz"; IdStr "a"])
    as (l & Hres & -> & _); [by left | by vm_compute | by repeat constructor | done |].
  exact Hres.
Defined.

Lemma cache_hit_store key r w k :
  cache_hit (cache_store key r w) k = if decide (k = key) then Some r else cache_hit w k.
Proof.
  unfold cache_hit, cache_store. simpl.
  destruct (decide (k = key)) as [->|Hne].
  - rewrite lookup_insert_eq. simpl.
    destruct (Z.ltb_spec (clock w) (clock w + CACHE_TTL)) as [|H]; [done|].
    unfold CACHE_TTL in H. lia.
  - by rewrite lookup_insert_ne.
Qed.

Lemma cache_hit_log o w k : cache_hit (log o w) k = cache_hit w k.
Proof. done. Qed.

(** What the fetches of [getBulk] leave in the cache, when no request
    fails: an entry answers afterwards exactly when it answered before or a
    fetched id with that key was found, and what it answers with is the
    record it held before or one found under such an id. *)
Lemma bulk_fetch_all_cache c s ids :
  ∀ w,
    Forall (fun i => valid_key i = true) ids →
    (∀ i, i ∈ ids → faults w (OpGet c i) = None) →
    ∀ k,
      (∀ r', cache_hit (bulk_fetch_all c s ids false w).2 k = Some r' →
         cache_hit w k = Some r'
         ∨ ∃ j, j ∈ ids ∧ cacheKey c j = k ∧ store_get j (records s) = Some r')
      ∧ (is_Some (cache_hit w k)
         ∨ (∃ j r, j ∈ ids ∧ cacheKey c j = k ∧ store_get j (records s) = Some r) →
         is_Some (cache_hit (bulk_fetch_all c s ids false w).2 k)).
Proof.
  induction ids as [|i ids IH]; intros w Hvalid Hf k.
  - simpl. split; [auto|]. intros [H|(j & r & []%elem_of_nil & _)]. done.
  - inversion Hvalid as [|? ? Hk Hvalid']; subst.
    pose proof (bulk_fetch_faults c s i false w) as Hfl.
    assert (∃ w1, bulk_fetch c s i false w
                  = (Resolved (lookup_result i s), false, w1)
                  ∧ cache_hit w1 k
                    = match store_get i (records s) with
                      | Some r => if decide (k = cacheKey c i) then Some r else cache_hit w k
                      | None => cache_hit w k
                      end) as (w1 & Hone & Hhit).
    { unfold bulk_fetch, lookup_result.
      rewrite Hk, (Hf i) by apply list_elem_of_here. simpl.
      destruct (store_get i (records s)) as [r|]; eexists; (split; [done|]).
      - by rewrite cache_hit_store.
      - done. }
    simpl. rewrite Hone in *. simpl in Hfl.
    assert (∀ j, j ∈ ids → faults w1 (OpGet c j) = None) as Hf1.
    { intros j Hj. rewrite Hfl. apply Hf. by apply list_elem_of_further. }
    destruct (IH w1 Hvalid' Hf1 k) as [IHs IHc].
    destruct (bulk_fetch_all c s ids false w1) as [ps w2]. simpl in *.
    split.
    + intros r' Hr'. destruct (IHs r' Hr') as [H1|(j & Hj & Hkj & Hg)].
      * rewrite Hhit in H1.
        destruct (store_get i (records s)) as [r|] eqn:Hg; [|auto].
        destruct (decide (k = cacheKey c i)) as [->|]; [|auto].
        right. exists i. split; [apply list_elem_of_here|]. split; [done|]. congruence.
      * right. exists j. split; [by apply list_elem_of_further|done].
    + intros H. apply IHc.
      destruct H as [H|(j & r & [->|Hj]%elem_of_cons & Hkj & Hg)].
      * left. rewrite Hhit.
        destruct (store_get i (records s)); [|done]. by destruct (decide _).
      * left. rewrite Hhit, Hg. rewrite decide_True by done. eauto.
      * right. eauto.
Qed.

(** X14: after a [getBulk] in which no fetch failed, every requested id
    that was in the cache or was found in the store is answered by [get]
    from the cache, without a call to IndexedDB; the record is the one the
    cache held before or one that was fetched under an id with the same
    cache key. *)
Theorem getBulk_fills_cache w c s ids i :
  c ≠ "" →
  connectable w →
  database w !! c = Some s →
  Forall (fun j => valid_key j = true) ids →
  (∀ j, j ∈ ids → faults w (OpGet c j) = None) →
  i ∈ ids →
  is_Some (cache_hit w (cacheKey c i)) ∨ is_Some (store_get i (records s)) →
  ∃ r',
    get c i (getBulk c (IdsArray ids) w).2
    = (Resolved (Obj r'), (getBulk c (IdsArray ids) w).2)
    ∧ (cache_hit w (cacheKey c i) = Some r'
       ∨ ∃ j, j ∈ ids ∧ cacheKey c j = cacheKey c i ∧ store_get j (records s) = Some r').
Proof.
  intros Hc Hconn Hs Hvalid Hf Hi Hfound.
  assert (∃ r', cache_hit (getBulk c (IdsArray ids) w).2 (cacheKey c i) = Some r'
                ∧ (cache_hit w (cacheKey c i) = Some r'
                   ∨ ∃ j, j ∈ ids ∧ cacheKey c j = cacheKey c i
                          ∧ store_get j (records s) = Some r')) as (r' & Hhit & Hfrom).
  { destruct ids as [|i0 ids]; [by apply elem_of_nil in Hi|].
    change (getBulk c (IdsArray (i0 :: ids)))
      with (try_catch (getBulk_try c (i0 :: ids)) (fun _ => Promise_resolve [])).
    revert Hvalid Hf Hi. generalize (i0 :: ids) as all. intros all Hvalid Hf Hi.
    unfold getBulk_try, try_catch, try_await, await, Promise_resolve.
    destruct (getDatabase_connectable w Hconn) as (w0 & -> & _ & Hd & Hsame).
    rewrite (check_cache_same c all w w0 Hsame).
    pose proof (check_cache_missing c all w) as Hmiss.
    assert (cache_hit w (cacheKey c i) = None → i ∈ (check_cache c all w).2) as Hin.
    { clear -Hi. intros Hnone. induction all as [|j all IH]; [by apply elem_of_nil in Hi|].
      simpl. destruct (check_cache c all w) as [res miss]. simpl in *.
      apply elem_of_cons in Hi as [<-|Hi].
      - rewrite Hnone. apply list_elem_of_here.
      - destruct (cache_hit w (cacheKey c j)); simpl; [by apply IH|].
        apply list_elem_of_further. by apply IH. }
    destruct (check_cache c all w) as [results [|m0 missing]]; cbn [fst snd] in *.
    { destruct (cache_hit w (cacheKey c i)) as [r0|] eqn:H0.
      - exists r0. split; [|by left]. by rewrite (same_cache_hit w w0 _ Hsame).
      - pose proof (Hin eq_refl) as Hnil. by apply elem_of_nil in Hnil. }
    remember (m0 :: missing) as miss eqn:Hm0.
    unfold db_transaction. rewrite Hd, Hs.
    destruct Hsame as (Hm & Hcl & Hfl).
    assert (Forall (fun j => valid_key j = true) miss) as Hvalid'.
    { apply Forall_forall. intros j Hj. rewrite Forall_forall in Hvalid.
      apply Hvalid. by apply Hmiss. }
    assert (∀ j, j ∈ miss → faults (log (OpTransaction c ReadOnly) w0) (OpGet c j) = None)
      as Hf'.
    { intros j Hj. cbn [faults log]. rewrite Hfl. apply Hf. by apply Hmiss. }
    destruct (bulk_fetch_all_cache c s miss _ Hvalid' Hf' (cacheKey c i)) as [Hsound Hcompl].
    assert (∀ k, cache_hit (log (OpTransaction c ReadOnly) w0) k = cache_hit w k) as Hsame0.
    { intros k. unfold cache_hit. simpl. by rewrite Hm, Hcl. }
    rewrite Hsame0 in Hsound, Hcompl.
    assert (is_Some (cache_hit (bulk_fetch_all c s miss false
                                  (log (OpTransaction c ReadOnly) w0)).2 (cacheKey c i)))
      as [r' Hr'].
    { apply Hcompl. destruct Hfound as [H|[r Hr]]; [by left|].
      destruct (cache_hit w (cacheKey c i)) eqn:H0; [left; eauto|].
      right. exists i, r. split; [by apply Hin|done]. }
    exists r'. destruct (Hsound r' Hr') as [H|(j & Hj & Hkj & Hg)].
    - split; [|by left].
      destruct (bulk_fetch_all c s miss false _) as [ps w2]. simpl in *.
      by destruct (Promise_all ps).
    - split; [|right; exists j; split; [by apply Hmiss|done]].
      destruct (bulk_fetch_all c s miss false _) as [ps w2]. simpl in *.
      by destruct (Promise_all ps). }
  exists r'. split; [|done].
  apply get_hit; [done| |done].
  rewrite Forall_forall in Hvalid. specialize (Hvalid i Hi). by destruct i.
Qed.

Lemma getBulk_fills_cache_witness :
  ∃ r',
    get "Mosaic" (IdStr "b")
      (getBulk "Mosaic" (IdsArray [IdStr "a"; IdStr "b"])
         (mosaic_world [photo "a" 1 "x"; photo "b" 2 "y"])).2
    = (Resolved (Obj r'),
       (getBulk "Mosaic" (IdsArray [IdStr "a"; IdStr "b"])
          (mosaic_world [photo "a" 1 "x"; photo "b" 2 "y"])).2).
Proof.
  destruct (getBulk_fills_cache (mosaic_world [photo "a" 1 "x"; photo "b" 2 "y"]) "Mosaic"
              {| records := [photo "a" 1 "x"; photo "b" 2 "y"]; indexNames := [] |}
              [IdStr "a"; IdStr "b"] (IdStr "b")) as (r' & H & _);
    [done | by right | done | by repeat constructor | done
     | apply list_elem_of_further, list_elem_of_here | right; by eexists |].
  by exists r'.
Defined.

(** X15: [getBulk] awaits the connection before it looks at the cache: when
    every id is in the cache and the database can be reached, it resolves
    with the cached records and opens no transaction; when the database
    cannot be opened it resolves with the empty array although every id is
    in the cache. *)
Theorem getBulk_cached_needs_database w c ids :
  ids ≠ [] →
  (check_cache c ids w).2 = [] →
  (connectable w →
     (getBulk c (IdsArray ids) w).1 = Resolved (check_cache c ids w).1
     ∧ length (check_cache c ids w).1 = length ids
     ∧ (getBulk c (IdsArray ids) w).2 = (getDatabase w).2)
  ∧ (dbConnection w = false → ∀ e, faults w OpOpen = Some e →
     (getBulk c (IdsArray ids) w).1 = Resolved []).
Proof.
  intros Hne Hall.
  destruct ids as [|i0 ids]; [done|]. clear Hne.
  change (getBulk c (IdsArray (i0 :: ids)))
    with (try_catch (getBulk_try c (i0 :: ids)) (fun _ => Promise_resolve [])).
  revert Hall. generalize (i0 :: ids) as all. intros all Hall.
  unfold getBulk_try, try_catch, try_await, await, Promise_resolve.
  split.
  - intros Hconn.
    destruct (getDatabase_connectable w Hconn) as (w0 & -> & _ & Hd & Hsame).
    rewrite (check_cache_same c all w w0 Hsame).
    pose proof (check_cache_length c all w) as Hlen.
    destruct (check_cache c all w) as [results missing]. simpl in *. subst missing.
    simpl in *. split; [done|]. split; [lia|done].
  - intros Hclosed e He. unfold getDatabase. by rewrite Hclosed, He.
Qed.

Lemma getBulk_cached_needs_database_witness :
  (getBulk "Mosaic" (IdsArray [IdStr "a"]) stale_world).1
    = Resolved [Obj (photo "a" 1 "old")]
  ∧ (getBulk "Mosaic" (IdsArray [IdStr "a"])
       (set_memoryCache (memoryCache stale_world) closed_world)).1 = Resolved [].
Proof.
  split.
  - destruct (getBulk_cached_needs_database stale_world "Mosaic" [IdStr "a"]) as [H _];
      [done | by vm_compute |].
    destruct H as (H & _); [by left|]. exact H.
  - destruct (getBulk_cached_needs_database
                (set_memoryCache (memoryCache stale_world) closed_world) "Mosaic" [IdStr "a"])
      as [_ H]; [done | by vm_compute |].
    apply (H eq_refl (DOMException "UnknownError")). done.
Defined.

(** ** Blob helpers *)

Lemma setImageBlob_resolved_inv w i bytes mime b :
  (setImageBlob i bytes mime w).1 = Resolved b →
  ∃ data s w1, bytes = Some data ∧ b = true ∧ id_truthy i = true ∧ valid_key i = true
    ∧ getDatabase w = (Resolved tt, w1)
    ∧ database w !! "IndexedDbFile" = Some s
    ∧ (setImageBlob i bytes mime w).2 =
        let v := blob_record i data (default "image/webp" mime) in
        let w2 := log (OpPut "IndexedDbFile" v)
                    (log (OpTransaction "IndexedDbFile" ReadWrite) w1) in
        match faults w (OpCommit "IndexedDbFile") with
        | Some _ => w2
        | None =>
            set_database
              (<["IndexedDbFile" := {| records := store_put v (records s);
                                       indexNames := indexNames s |}]> (database w)) w2
        end.
Proof.
  unfold setImageBlob, Promise_reject.
  destruct bytes as [data|]; [|done].
  destruct (id_truthy i) eqn:Hid; simpl; [|done].
  unfold await, new_Promise, tx_put, db_transaction.
  pose proof (getDatabase_same_cache w) as (_ & _ & Hfl).
  destruct (getDatabase w) as [[| [] |] w1] eqn:Hdb; simpl in *; try done.
  apply getDatabase_resolved in Hdb as Hdb'. destruct Hdb' as (_ & _ & Hd & _).
  rewrite Hd, Hfl.
  destruct (database w !! "IndexedDbFile") as [s|] eqn:Hs; simpl; [|done].
  destruct (valid_key i) eqn:Hk; simpl; [|done].
  destruct (faults w (OpPut _ _)) eqn:Hf; simpl; [done|].
  destruct (faults w (OpCommit "IndexedDbFile")) eqn:Hcm; simpl; intros [= <-];
    exists data, s, w1; by rewrite ?Hd.
Qed.

Lemma getImageBytes_reads w i s :
  dbConnection w = true →
  database w !! "IndexedDbFile" = Some s →
  valid_key i = true →
  faults w (OpGet "IndexedDbFile" i) = None →
  (getImageBytes i w).1
  = Resolved (match store_get i (records s) with
              | Some r => field "blob" (rec_fields r)
              | None => None
              end).
Proof.
  intros Hconn Hs Hk Hf.
  unfold getImageBytes, await, new_Promise, tx_get, db_transaction.
  rewrite (getDatabase_connected w Hconn), Hs, Hk. simpl. rewrite Hf. simpl.
  unfold lookup_result. by destruct (store_get i (records s)).
Qed.

(** X16: bytes stored by [setImageBlob] under an id are the bytes
    [getImageBytes] gives back for that id, once the write has committed. *)
Theorem setImageBlob_getImageBytes w i data mime :
  (setImageBlob i (Some data) mime w).1 = Resolved true →
  faults w (OpCommit "IndexedDbFile") = None →
  faults w (OpGet "IndexedDbFile" i) = None →
  (getImageBytes i (setImageBlob i (Some data) mime w).2).1 = Resolved (Some data).
Proof.
  intros Hset Hcm Hget.
  destruct (setImageBlob_resolved_inv _ _ _ _ _ Hset)
    as (data' & s & w1 & [= <-] & _ & _ & Hk & Hdb & Hs & Hw).
  rewrite Hcm in Hw. cbn zeta in Hw.
  pose proof (getDatabase_same_cache w) as (_ & _ & Hfl). rewrite Hdb in Hfl. simpl in Hfl.
  apply getDatabase_resolved in Hdb as (_ & Hconn & _ & _).
  rewrite (getImageBytes_reads _ i
             {| records := store_put (blob_record i data (default "image/webp" mime)) (records s);
                indexNames := indexNames s |}); try done.
  - simpl.
    change i with (rec_id (blob_record i data (default "image/webp" mime))) at 1.
    by rewrite store_get_put.
  - by rewrite Hw.
  - rewrite Hw. simpl. by rewrite lookup_insert_eq.
  - rewrite Hw. simpl. by rewrite Hfl.
Qed.

Lemma setImageBlob_getImageBytes_witness :
  (getImageBytes (IdStr "img1")
     (setImageBlob (IdStr "img1") (Some "RIFFdata") None (file_world [])).2).1
  = Resolved (Some "RIFFdata").
Proof.
  apply (setImageBlob_getImageBytes (file_world []) (IdStr "img1") "RIFFdata" None);
    by vm_compute.
Defined.

Lemma field_blob_copy destId rec :
  field "blob" (rec_fields (copy_record destId rec)) = field "blob" (rec_fields rec).
Proof.
  unfold copy_record. simpl.
  destruct (field "blob" (rec_fields rec)), (field "mimeType" (rec_fields rec)); done.
Qed.

(** X17: [copyIndexedDbFile] resolves with [false] and writes nothing when
    the source id is not stored; when it is stored and the copy commits, it
    resolves with [true] and [getImageBytes] of the destination gives the
    bytes of the source; when the destination id is not a valid key, the
    promise is never settled and nothing is written. *)
Theorem copyIndexedDbFile_outcomes w srcId destId s :
  connectable w →
  database w !! "IndexedDbFile" = Some s →
  valid_key srcId = true →
  faults w (OpGet "IndexedDbFile" srcId) = None →
  (store_get srcId (records s) = None →
     (copyIndexedDbFile srcId destId w).1 = Resolved false
     ∧ database (copyIndexedDbFile srcId destId w).2 = database w)
  ∧ (∀ rec, store_get srcId (records s) = Some rec →
       valid_key destId = true →
       faults w (OpPut "IndexedDbFile" (copy_record destId rec)) = None →
       faults w (OpCommit "IndexedDbFile") = None →
       faults w (OpGet "IndexedDbFile" destId) = None →
       (copyIndexedDbFile srcId destId w).1 = Resolved true
       ∧ (getImageBytes destId (copyIndexedDbFile srcId destId w).2).1
         = Resolved (field "blob" (rec_fields rec)))
  ∧ (∀ rec, store_get srcId (records s) = Some rec →
       valid_key destId = false →
       (copyIndexedDbFile srcId destId w).1 = Pending
       ∧ database (copyIndexedDbFile srcId destId w).2 = database w).
Proof.
  intros Hconn Hs Hk Hf.
  destruct (getDatabase_connectable w Hconn) as (w1 & Hdb & Hc1 & Hd & _ & _ & Hfl).
  unfold copyIndexedDbFile, await, db_transaction. rewrite Hdb, Hd, Hs, Hk, Hfl, Hf.
  cbn [negb fst snd].
  split; [|split].
  - intros ->. by rewrite <- Hd.
  - intros rec -> Hkd Hput Hcm Hgetd. rewrite Hkd, Hput, Hcm. cbn [negb fst snd].
    split; [done|].
    rewrite (getImageBytes_reads _ destId
               {| records := store_put (copy_record destId rec) (records s);
                  indexNames := indexNames s |}); try done.
    + simpl.
      change destId with (rec_id (copy_record destId rec)) at 1.
      by rewrite store_get_put, field_blob_copy.
    + simpl. by rewrite lookup_insert_eq.
    + simpl. by rewrite Hfl.
  - intros rec -> Hkd. rewrite Hkd. cbn [negb fst snd]. by rewrite <- Hd.
Qed.

Lemma copyIndexedDbFile_outcomes_witness :
  (getImageBytes (IdStr "copy")
     (copyIndexedDbFile (IdStr "img1") (IdStr "copy")
        (file_world [blob_record (IdStr "img1") "RIFFdata" "image/webp"])).2).1
  = Resolved (Some "RIFFdata")
  ∧ (copyIndexedDbFile (IdStr "none") (IdStr "copy")
       (file_world [blob_record (IdStr "img1") "RIFFdata" "image/webp"])).1 = Resolved false
  ∧ (copyIndexedDbFile (IdStr "img1") IdUndefined
       (file_world [blob_record (IdStr "img1") "RIFFdata" "image/webp"])).1 = Pending.
Proof.
  split; [|split].
  - destruct (copyIndexedDbFile_outcomes
                (file_world [blob_record (IdStr "img1") "RIFFdata" "image/webp"])
                (IdStr "img1") (IdStr "copy")
                {| records := [blob_record (IdStr "img1") "RIFFdata" "image/webp"];
                   indexNames := [] |}) as (_ & H & _); [by right | done..|].
    by destruct (H (blob_record (IdStr "img1") "RIFFdata" "image/webp")) as [_ ->].
  - destruct (copyIndexedDbFile_outcomes
                (file_world [blob_record (IdStr "img1") "RIFFdata" "image/webp"])
                (IdStr "none") (IdStr "copy")
                {| records := [blob_record (IdStr "img1") "RIFFdata" "image/webp"];
                   indexNames := [] |}) as (H & _); [by right | done..|].
    by destruct H as [-> _].
  - destruct (copyIndexedDbFile_outcomes
                (file_world [blob_record (IdStr "img1") "RIFFdata" "image/webp"])
                (IdStr "img1") IdUndefined
                {| records := [blob_record (IdStr "img1") "RIFFdata" "image/webp"];
                   indexNames := [] |}) as (_ & _ & H); [by right | done..|].
    by destruct (H (blob_record (IdStr "img1") "RIFFdata" "image/webp")) as [-> _].
Defined.

(** ** What a write leaves alone *)

Lemma key_compare_eq a b :
  valid_key a = true → valid_key b = true → key_compare a b = Eq → a = b.
Proof.
  destruct a, b; simpl; try done.
  - intros _ _ H. f_equal. by apply Z.compare_eq.
  - intros _ _ H. f_equal. by apply String.compare_eq_iff.
Qed.

Lemma key_eqb_ne a b :
  valid_key a = true → valid_key b = true → a ≠ b → key_eqb a b = false.
Proof.
  intros Ha Hb Hne. unfold key_eqb.
  destruct (key_compare a b) eqn:E; try done.
  by apply key_compare_eq in E.
Qed.

Lemma store_get_put_ne k v l :
  valid_key k = true → valid_key (rec_id v) = true → keys_valid l →
  k ≠ rec_id v →
  store_get k (store_put v l) = store_get k l.
Proof.
  intros Hk Hv Hl Hne. unfold store_get.
  induction l as [|x l IH]; simpl.
  - by rewrite key_eqb_ne.
  - inversion Hl as [|? ? Hx Hl']; subst.
    destruct (key_compare (rec_id v) (rec_id x)) eqn:E; simpl.
    + apply key_compare_eq in E; [|done..]. rewrite <- E.
      by rewrite key_eqb_ne.
    + by rewrite (key_eqb_ne k (rec_id v)).
    + by rewrite IH.
Qed.

Lemma store_get_delete_ne k i l :
  valid_key k = true → valid_key i = true → keys_valid l →
  k ≠ i →
  store_get k (store_delete i l) = store_get k l.
Proof.
  intros Hk Hi Hl Hne. unfold store_get, store_delete.
  induction l as [|x l IH]; simpl; [done|].
  inversion Hl as [|? ? Hx Hl']; subst.
  destruct (key_eqb i (rec_id x)) eqn:E; simpl.
  - assert (i = rec_id x) as <-.
    { unfold key_eqb in E. destruct (key_compare i (rec_id x)) eqn:E'; try done.
      by apply key_compare_eq in E'. }
    rewrite (key_eqb_ne k i) by done. by apply IH.
  - destruct (key_eqb k (rec_id x)); [done|]. by apply IH.
Qed.

(** X18: a [set] or a [deleteRecord] that resolves changes nothing for any
    other collection, and in its own collection nothing for any other id:
    what the store holds under another key is what it held before. *)
Theorem writes_leave_other_ids w c s k :
  database w !! c = Some s →
  keys_valid (records s) →
  valid_key k = true →
  (∀ r, (set c (Obj r) w).1 = Resolved true → k ≠ rec_id r →
     (∀ c', c' ≠ c → database (set c (Obj r) w).2 !! c' = database w !! c')
     ∧ ∃ s', database (set c (Obj r) w).2 !! c = Some s'
             ∧ store_get k (records s') = store_get k (records s)
             ∧ indexNames s' = indexNames s)
  ∧ (∀ i, (deleteRecord c i w).1 = Resolved true → k ≠ i →
     (∀ c', c' ≠ c → database (deleteRecord c i w).2 !! c' = database w !! c')
     ∧ ∃ s', database (deleteRecord c i w).2 !! c = Some s'
             ∧ store_get k (records s') = store_get k (records s)
             ∧ indexNames s' = indexNames s).
Proof.
  intros Hs Hvalid Hk. split.
  - intros r Hset Hne.
    destruct (set_resolved_inv _ _ _ _ Hset)
      as (r' & s0 & w1 & [= <-] & _ & _ & _ & Hkr & _ & Hs0 & _ & _ & Hw).
    rewrite Hs in Hs0. injection Hs0 as <-. rewrite Hw. simpl. split.
    + intros c' Hc'. by rewrite lookup_insert_ne.
    + eexists. rewrite lookup_insert_eq. split; [done|]. simpl.
      split; [by apply store_get_put_ne|done].
  - intros i Hdel Hne.
    destruct (deleteRecord_resolved_inv _ _ _ _ Hdel)
      as (s0 & w1 & _ & Hki & Hdb & Hs0 & _ & Hw).
    rewrite Hs in Hs0. injection Hs0 as <-. rewrite Hw.
    apply getDatabase_resolved in Hdb as (_ & _ & Hd & _).
    destruct (faults w (OpCommit c)); cbn zeta; simpl.
    + split; [intros; by rewrite Hd|]. exists s. by rewrite Hd.
    + split; [intros c' Hc'; by rewrite lookup_insert_ne|].
      eexists. rewrite lookup_insert_eq. split; [done|]. simpl.
      split; [by apply store_get_delete_ne|done].
Qed.

Lemma writes_leave_other_ids_witness :
  ∃ s', database (set "Mosaic" (Obj (photo "b" 2 "new"))
                    (mosaic_world [photo "a" 1 "x"; photo "b" 2 "y"])).2 !! "Mosaic" = Some s'
        ∧ store_get (IdStr "a") (records s') = Some (photo "a" 1 "x").
Proof.
  destruct (writes_leave_other_ids (mosaic_world [photo "a" 1 "x"; photo "b" 2 "y"]) "Mosaic"
              {| records := [photo "a" 1 "x"; photo "b" 2 "y"]; indexNames := [] |}
              (IdStr "a")) as [Hset _];
    [done | by repeat constructor | done |].
  destruct (Hset (photo "b" 2 "new")) as (_ & s' & Hs' & Hget & _); [by vm_compute | done |].
  exists s'. split; [exact Hs' | exact Hget].
Defined.

(** ** hasRecord and getAll *)

Lemma hasRecord_reads wx c i s :
  dbConnection (base wx) = true →
  database (base wx) !! c = Some s →
  valid_key i = true →
  faultsX wx (OpxGetKey c i) = None →
  (hasRecord c i wx).1
  = Resolved (match store_get i (records s) with Some _ => true | None => false end).
Proof.
  intros Hconn Hs Hk Hf. unfold hasRecord, db_transaction.
  by rewrite (getDatabase_connected _ Hconn), Hs, Hk, Hf.
Qed.

(** X19: [hasRecord] follows the store and never the cache: it resolves
    with [true] after a [set] of the id has resolved and with [false] after
    a [deleteRecord] of it has committed, also while [get] still answers
    with the record from the cache. *)
Theorem hasRecord_follows_store wx c :
  (∀ r, (set c (Obj r) (base wx)).1 = Resolved true →
     faultsX wx (OpxGetKey c (rec_id r)) = None →
     (hasRecord c (rec_id r) (with_base (set c (Obj r) (base wx)).2 wx)).1 = Resolved true)
  ∧ (∀ i, (deleteRecord c i (base wx)).1 = Resolved true →
       faults (base wx) (OpCommit c) = None →
       faultsX wx (OpxGetKey c i) = None →
       (hasRecord c i (with_base (deleteRecord c i (base wx)).2 wx)).1 = Resolved false
       ∧ ∀ r0, c ≠ "" → cache_hit (base wx) (cacheKey c i) = Some r0 →
           (get c i (deleteRecord c i (base wx)).2).1 = Resolved (Obj r0)).
Proof.
  split.
  - intros r Hset Hf.
    destruct (set_resolved_inv _ _ _ _ Hset)
      as (r' & s & w1 & [= <-] & _ & _ & _ & Hk & Hdb & _ & _ & _ & Hw).
    apply getDatabase_resolved in Hdb as (_ & Hconn & _ & _).
    rewrite (hasRecord_reads _ c (rec_id r)
               {| records := store_put r (records s); indexNames := indexNames s |});
      try done.
    + simpl. by rewrite store_get_put.
    + simpl. by rewrite Hw.
    + simpl. rewrite Hw. simpl. by rewrite lookup_insert_eq.
  - intros i Hdel Hcm Hf.
    pose proof (deleteRecord_same_cache c i (base wx)) as Hsame.
    destruct (deleteRecord_resolved_inv _ _ _ _ Hdel)
      as (s & w1 & _ & Hk & Hdb & _ & _ & Hw).
    rewrite Hcm in Hw. cbn zeta in Hw.
    apply getDatabase_resolved in Hdb as (_ & Hconn & _ & _).
    split.
    + rewrite (hasRecord_reads _ c i
                 {| records := store_delete i (records s); indexNames := indexNames s |});
        try done.
      * simpl. by rewrite store_get_delete.
      * simpl. by rewrite Hw.
      * simpl. rewrite Hw. simpl. by rewrite lookup_insert_eq.
    + intros r0 Hc Hhit. rewrite (get_hit _ c i r0); try done.
      * by destruct i.
      * by rewrite (same_cache_hit (base wx)).
Qed.

Lemma hasRecord_follows_store_witness :
  (hasRecord "Mosaic" (IdStr "a")
     (with_base (deleteRecord "Mosaic" (IdStr "a") stale_world).2 (around stale_world 2))).1
    = Resolved false
  ∧ (get "Mosaic" (IdStr "a") (deleteRecord "Mosaic" (IdStr "a") stale_world).2).1
    = Resolved (Obj (photo "a" 1 "old"))
  ∧ (hasRecord "Mosaic" (IdStr "n")
       (with_base (set "Mosaic" (Obj (photo "n" 3 "new")) stale_world).2
          (around stale_world 2))).1 = Resolved true.
Proof.
  destruct (hasRecord_follows_store (around stale_world 2) "Mosaic") as [Hset Hdel].
  destruct (Hdel (IdStr "a")) as [Hfalse Hget]; [by vm_compute | done | done |].
  split; [exact Hfalse|]. split.
  - apply (Hget (photo "a" 1 "old")); [done | by vm_compute].
  - apply (Hset (photo "n" 3 "new")); [by vm_compute | done].
Defined.

(** X20: [getAll] resolves with every record of the collection in key
    order: the list [getRange] gives from 0 for any [take] that is at least
    their number, and as long as the number [count] resolves with. *)
Theorem getAll_is_whole_range wx c s take :
  connectable (base wx) →
  database (base wx) !! c = Some s →
  faultsX wx (OpxGetAll c) = None →
  faults (base wx) (OpOpenCursor c) = None →
  faults (base wx) (OpCount c) = None →
  Z.of_nat (length (records s)) ≤ take →
  ∃ all,
    (getAll c wx).1 = Resolved all
    ∧ (getRange c 0 take (base wx)).1 = Resolved all
    ∧ (count c (base wx)).1 = Resolved (Z.of_nat (length all)).
Proof.
  intros Hconn Hs Hfx Hfc Hfn Htake.
  exists (records s). split; [|split].
  - unfold getAll, db_transaction.
    destruct (getDatabase_connectable _ Hconn) as (w1 & -> & _ & Hd & _).
    by rewrite Hd, Hs, Hfx.
  - rewrite (getRange_resolves _ c s) by done.
    change (Z.to_nat 0) with 0%nat. rewrite drop_0.
    rewrite firstn_all2; [done|lia].
  - unfold count, try_await, new_Promise, tx_count, db_transaction.
    destruct (getDatabase_connectable _ Hconn) as (w1 & -> & _ & Hd & _ & _ & Hfl).
    by rewrite Hd, Hs, Hfl, Hfn.
Qed.

Lemma getAll_is_whole_range_witness :
  (getAll "Mosaic" (around (mosaic_world [photo "a" 1 "x"; photo "b" 2 "y"]) 2)).1
  = Resolved [photo "a" 1 "x"; photo "b" 2 "y"].
Proof.
  destruct (getAll_is_whole_range
              (around (mosaic_world [photo "a" 1 "x"; photo "b" 2 "y"]) 2) "Mosaic"
              {| records := [photo "a" 1 "x"; photo "b" 2 "y"]; indexNames := [] |} 10)
    as (all & Hall & Hrange & _); [by right | done | done | done | done | simpl; lia |].
  vm_compute in Hrange. injection Hrange as <-. exact Hall.
Defined.

(** ** initialize *)

Lemma lookup_create_stores names :
  ∀ d c,
    create_stores names d !! c
    = match d !! c with
      | Some s => Some s
      | None =>
          if bool_decide (c ∈ names) then Some {| records := []; indexNames := [] |}
          else None
      end.
Proof.
  unfold create_stores.
  induction names as [|name names IH]; intros d c; simpl.
  - by destruct (d !! c).
  - rewrite IH. unfold contains.
    destruct (decide (c = name)) as [->|Hne].
    + rewrite (bool_decide_eq_true_2 (name ∈ name :: names)) by apply list_elem_of_here.
      destruct (d !! name) eqn:Hd; [by rewrite Hd|]. by rewrite lookup_insert_eq.
    + assert (bool_decide (c ∈ name :: names) = bool_decide (c ∈ names)) as ->.
      { apply bool_decide_ext. rewrite elem_of_cons. split; [intros [?|?]; done | by right]. }
      destruct (d !! name); [done|]. by rewrite lookup_insert_ne.
Qed.

Lemma lookup_ensure_index d c :
  ensure_index d !! c
  = match d !! c with
    | Some s =>
        if bool_decide (c = "ImageData") && negb (has_index "UploadDate" s)
        then Some {| records := records s; indexNames := indexNames s ++ ["UploadDate"] |}
        else Some s
    | None => None
    end.
Proof.
  unfold ensure_index.
  destruct (d !! "ImageData") as [s0|] eqn:H0.
  - destruct (has_index "UploadDate" s0) eqn:Hi.
    + destruct (d !! c) as [s|] eqn:Hc; [|done].
      case_bool_decide as Heq; [|done]. subst c.
      rewrite H0 in Hc. injection Hc as <-. by rewrite Hi.
    + destruct (decide (c = "ImageData")) as [->|Hne].
      * rewrite lookup_insert_eq, H0, Hi. by rewrite bool_decide_eq_true_2.
      * rewrite lookup_insert_ne by done.
        destruct (d !! c); [|done]. by rewrite bool_decide_eq_false_2.
  - destruct (d !! c) as [s|] eqn:Hc; [|done].
    case_bool_decide as Heq; [|done]. subst c. congruence.
Qed.

Lemma has_index_added s :
  has_index "UploadDate"
    {| records := records s; indexNames := indexNames s ++ ["UploadDate"] |} = true.
Proof.
  unfold has_index. simpl. rewrite existsb_app. simpl. by rewrite orb_true_r.
Qed.

(** What an upgrade leaves: every store that was there with its records,
    every store asked for, and [ImageData], when it is among them, with the
    index. *)
Lemma upgrade_spec names d :
  (∀ c s, d !! c = Some s →
     ∃ s', ensure_index (create_stores names d) !! c = Some s' ∧ records s' = records s)
  ∧ (∀ name, name ∈ names → is_Some (ensure_index (create_stores names d) !! name))
  ∧ (∀ c, is_Some (d !! c) → is_Some (ensure_index (create_stores names d) !! c))
  ∧ (is_Some (d !! "ImageData") ∨ "ImageData" ∈ names →
     ∃ s, ensure_index (create_stores names d) !! "ImageData" = Some s
          ∧ has_index "UploadDate" s = true).
Proof.
  assert (∀ c, is_Some (d !! c) ∨ c ∈ names →
               ∃ s, create_stores names d !! c = Some s) as Hthere.
  { intros c [[s Hs]|Hin]; rewrite lookup_create_stores.
    - rewrite Hs. eauto.
    - destruct (d !! c); [eauto|]. rewrite bool_decide_eq_true_2 by done. eauto. }
  assert (∀ c, is_Some (d !! c) ∨ c ∈ names →
               is_Some (ensure_index (create_stores names d) !! c)) as Hsome.
  { intros c Hc. destruct (Hthere c Hc) as [s Hs].
    rewrite lookup_ensure_index, Hs. destruct (_ && _); eauto. }
  split; [|split; [|split]].
  - intros c s Hs. rewrite lookup_ensure_index, lookup_create_stores, Hs.
    destruct (_ && _); eauto.
  - intros name Hin. apply Hsome. by right.
  - intros c Hc. apply Hsome. by left.
  - intros Himg. destruct (Hthere "ImageData" Himg) as [s Hs].
    rewrite lookup_ensure_index, Hs. rewrite bool_decide_eq_true_2 by done. simpl.
    destruct (has_index "UploadDate" s) eqn:Hi; simpl; eexists; split; try done.
    apply has_index_added.
Qed.

Lemma missing_none (d : gmap string objectStore) (names : list string) :
  List.filter (fun store => negb (contains d store)) names = [] →
  ∀ name, name ∈ names → is_Some (d !! name).
Proof.
  induction names as [|n names IH]; simpl; [by intros _ ? []%elem_of_nil|].
  unfold contains at 1. destruct (d !! n) as [s|] eqn:Hn; simpl; [|done].
  intros Hnil name [->|Hin]%elem_of_cons; [eauto|]. by apply IH.
Qed.

Lemma missing_all_there (d : gmap string objectStore) (names : list string) :
  (∀ name, name ∈ names → is_Some (d !! name)) →
  List.filter (fun store => negb (contains d store)) names = [].
Proof.
  induction names as [|n names IH]; intros Hall; simpl; [done|].
  unfold contains at 1.
  destruct (Hall n) as [s ->]; [apply list_elem_of_here|]. simpl.
  apply IH. intros name Hin. apply Hall. by apply list_elem_of_further.
Qed.

Lemma missing_elem (d : gmap string objectStore) (names : list string) name :
  name ∈ names → d !! name = None →
  name ∈ List.filter (fun store => negb (contains d store)) names.
Proof.
  intros Hin Hnone. apply list_elem_of_In, List.filter_In.
  split; [by apply list_elem_of_In|]. unfold contains. by rewrite Hnone.
Qed.

(** X21: an [initialize] that resolves has resolved with [true] and left
    the connection in [dbConnection]; every store that existed is still
    there with its records; and, when the first open did not fail, every
    required store exists. *)
Theorem initialize_required_stores wx b :
  (initialize wx).1 = Resolved b →
  b = true
  ∧ dbConnection (base (initialize wx).2) = true
  ∧ (∀ c s, database (base wx) !! c = Some s →
       ∃ s', database (base (initialize wx).2) !! c = Some s' ∧ records s' = records s)
  ∧ (faults (base wx) OpOpen = None →
     ∀ name, name ∈ REQUIRED_STORES →
       is_Some (database (base (initialize wx).2) !! name)).
Proof.
  unfold initialize. remember REQUIRED_STORES as required eqn:Hreq.
  destruct (faults (base wx) OpOpen) as [e|] eqn:Hopen.
  - destruct (faultsX wx (OpxOpenVersion 1)); [done|].
    destruct (version wx) as [|[|v]]; [|simpl|done].
    + destruct (dbConnection (base wx)); [done|]. cbn [fst snd]. intros [= <-].
      destruct (upgrade_spec required (database (base wx))) as (Hkeep & _).
      repeat split; try done.
    + intros [= <-]. repeat split; try done. eauto.
  - destruct (List.filter _ required) as [|m0 missing] eqn:Hmissing.
    + pose proof (getDatabase_database (log OpOpen (base wx))) as Hd.
      destruct (getDatabase (log OpOpen (base wx))) as [[| [] |e] w2] eqn:Hdb; try done.
      apply getDatabase_resolved in Hdb as (_ & Hconn & _ & _).
      cbn [fst snd base] in *. intros [= <-]. split; [done|]. split; [done|]. split.
      * intros c s Hs. rewrite Hd. eauto.
      * intros _ name Hin. rewrite Hd. by apply (missing_none _ _ Hmissing).
    + destruct (faultsX wx _); [done|].
      destruct (dbConnection (base wx)); [done|]. cbn [fst snd]. intros [= <-].
      destruct (upgrade_spec (m0 :: missing) (database (base wx)))
        as (Hkeep & Hnew & Hold & _).
      split; [done|]. split; [done|]. split; [done|].
      intros _ name Hin.
      destruct (database (base wx) !! name) as [s|] eqn:Hname.
      * apply Hold. by rewrite Hname.
      * apply Hnew. rewrite <- Hmissing. by apply missing_elem.
Qed.

Lemma initialize_required_stores_witness :
  is_Some (database (base (initialize fresh_world).2) !! "ImageData")
  ∧ is_Some (database (base (initialize fresh_world).2) !! "IndexedDbFile").
Proof.
  destruct (initialize_required_stores fresh_world true) as (_ & _ & _ & Hall);
    [by vm_compute|].
  split; apply Hall; try done.
  - do 4 apply list_elem_of_further. apply list_elem_of_here.
  - do 2 apply list_elem_of_further. apply list_elem_of_here.
Defined.

(** X22: when every required store exists, [initialize] upgrades nothing:
    it resolves with [true], issues no open with a version and leaves the
    database as it was, so an [ImageData] store without the [UploadDate]
    index stays without it. *)
Theorem initialize_without_upgrade wx :
  faults (base wx) OpOpen = None →
  (∀ name, name ∈ REQUIRED_STORES → is_Some (database (base wx) !! name)) →
  (initialize wx).1 = Resolved true
  ∧ database (base (initialize wx).2) = database (base wx)
  ∧ traceX (initialize wx).2 = traceX wx.
Proof.
  intros Hopen Hall. unfold initialize. rewrite Hopen.
  rewrite (missing_all_there _ _ Hall). cbn zeta.
  pose proof (getDatabase_database (log OpOpen (base wx))) as Hd.
  assert (connectable (log OpOpen (base wx))) as Hconn by (by right).
  destruct (getDatabase_connectable _ Hconn) as (w2 & Hdb & _).
  rewrite Hdb in *. done.
Qed.

Lemma initialize_without_upgrade_witness :
  (initialize unindexed_world).1 = Resolved true
  ∧ database (base (initialize unindexed_world).2) = database (base unindexed_world).
Proof.
  destruct (initialize_without_upgrade unindexed_world) as (H1 & H2 & _); [done| |done].
  intros name Hin. unfold REQUIRED_STORES in Hin.
  repeat (apply elem_of_cons in Hin as [->|Hin];
          [exists {| records := []; indexNames := [] |}; by vm_compute|]).
  by apply elem_of_nil in Hin.
Defined.

(** X23: when a required store is missing, no connection is held and the
    versioned open does not fail, [initialize] resolves with [true] after
    one upgrade to the next version, and [ImageData] has the [UploadDate]
    index afterwards, whether the store was there before or not. *)
Theorem initialize_upgrade_adds_index wx missing :
  faults (base wx) OpOpen = None →
  missing ∈ REQUIRED_STORES →
  database (base wx) !! missing = None →
  dbConnection (base wx) = false →
  faultsX wx (OpxOpenVersion (S (Nat.max 1 (version wx)))) = None →
  (initialize wx).1 = Resolved true
  ∧ version (initialize wx).2 = S (Nat.max 1 (version wx))
  ∧ new_calls (base wx) (base (initialize wx).2) = [OpOpen]
  ∧ ∃ s, database (base (initialize wx).2) !! "ImageData" = Some s
         ∧ has_index "UploadDate" s = true.
Proof.
  intros Hopen Hin Hnone Hconn Hfx. unfold initialize. rewrite Hopen.
  pose proof (missing_elem _ _ _ Hin Hnone) as Hmiss.
  assert ("ImageData" ∈ REQUIRED_STORES) as Himage
    by (do 4 apply list_elem_of_further; apply list_elem_of_here).
  remember REQUIRED_STORES as required eqn:Hreq.
  destruct (List.filter _ required) as [|m0 rest] eqn:Hmissing;
    [by apply elem_of_nil in Hmiss|].
  rewrite Hfx, Hconn. cbn [fst snd].
  split; [done|]. split; [done|]. split.
  { unfold new_calls. simpl. by rewrite drop_app_length. }
  destruct (upgrade_spec (m0 :: rest) (database (base wx))) as (_ & _ & _ & Himg).
  apply Himg.
  destruct (database (base wx) !! "ImageData") as [s|] eqn:Hs; [left; eauto|].
  right. rewrite <- Hmissing. by apply missing_elem.
Qed.

Lemma initialize_upgrade_adds_index_witness :
  (initialize fresh_world).1 = Resolved true
  ∧ version (initialize fresh_world).2 = 2%nat.
Proof.
  destruct (initialize_upgrade_adds_index fresh_world "Mosaic") as (H1 & H2 & _);
    [done | apply list_elem_of_here | done | done | done |].
  split; [exact H1 | exact H2].
Defined.

(** ** Cache keys and expiry *)

Lemma get_touches_own_key_witness :
  memoryCache (get "Mosaic" (IdStr "b") stale_world).2 !! cacheKey "Mosaic" (IdStr "a")
  = memoryCache stale_world !! cacheKey "Mosaic" (IdStr "a").
Proof.
  destruct (get_touches_own_key stale_world "Mosaic" (IdStr "b")) as (_ & Hother & _).
  apply Hother. by vm_compute.
Defined.

(** X24: the cache tells two requests apart by the text [collection:id]
    only.  Once a [get] has read and cached a record, a [get] whose
    collection and id print to the same key is answered with that record,
    without a look at the store, also when it names another id (the number
    1 and the string "1") or another collection.  Numeric ids are taken
    among the safe integers, whose text is their digits. *)
Theorem get_keys_collide w c i r c' i' :
  safe_integer_id i = true → safe_integer_id i' = true →
  cache_hit w (cacheKey c i) = None →
  (get c i w).1 = Resolved (Obj r) →
  cacheKey c' i' = cacheKey c i →
  c' ≠ "" → i' ≠ IdUndefined →
  get c' i' (get c i w).2 = (Resolved (Obj r), (get c i w).2).
Proof.
  intros _ _ Hmiss Hres Hkey Hc' Hi'.
  destruct (get_miss_inv _ _ _ _ Hmiss Hres) as (s & w1 & _ & _ & _ & _ & _ & _ & Hw).
  apply get_hit; [done..|].
  rewrite Hkey, Hw, cache_hit_store. by rewrite decide_True.
Qed.

Lemma get_keys_collide_witness :
  (get "Mosaic" (IdStr "1")
     (get "Mosaic" (IdNum 1)
        (mosaic_world [{| rec_id := IdNum 1; rec_UploadDate := Some 1; rec_fields := [] |}])).2).1
  = Resolved (Obj {| rec_id := IdNum 1; rec_UploadDate := Some 1; rec_fields := [] |}).
Proof.
  rewrite (get_keys_collide
             (mosaic_world [{| rec_id := IdNum 1; rec_UploadDate := Some 1; rec_fields := [] |}])
             "Mosaic" (IdNum 1)
             {| rec_id := IdNum 1; rec_UploadDate := Some 1; rec_fields := [] |}
             "Mosaic" (IdStr "1")); by vm_compute.
Defined.

Lemma new_calls_two w w' a b : trace w' = trace w ++ [a; b] → new_calls w w' = [a; b].
Proof. intros H. unfold new_calls. by rewrite H, drop_app_length. Qed.

(** X25: a hit does not renew an entry.  A record read from the store at
    time [t] is answered from the cache until [t + CACHE_TTL] and read from
    the store again from then on, however often it was asked for in
    between. *)
Theorem get_hit_keeps_expiry w c i r d1 d2 :
  cache_hit w (cacheKey c i) = None →
  (get c i w).1 = Resolved (Obj r) →
  d1 < CACHE_TTL →
  CACHE_TTL ≤ d1 + d2 →
  (get c i (tick d1 (get c i w).2)).1 = Resolved (Obj r)
  ∧ new_calls (get c i (tick d1 (get c i w).2)).2
      (get c i (tick d2 (get c i (tick d1 (get c i w).2)).2)).2
    = [OpTransaction c ReadOnly; OpGet c i].
Proof.
  intros Hmiss Hres Hd1 Hd2.
  destruct (get_miss_inv _ _ _ _ Hmiss Hres) as (s & w1 & Hc & Hk & Hdb & Hs & Hg & Hf & Hw).
  pose proof (getDatabase_same_cache w) as Hsame. rewrite Hdb in Hsame.
  destruct Hsame as (Hm1 & Hc1 & Hf1). simpl in *.
  apply getDatabase_resolved in Hdb as (_ & Hconn & Hd & _).
  assert (memoryCache (get c i w).2 !! cacheKey c i
          = Some {| value := r; expires := clock w + CACHE_TTL |}) as Hentry.
  { rewrite Hw. simpl. rewrite lookup_insert_eq. by rewrite Hc1. }
  assert (clock (get c i w).2 = clock w) as Hclock by (by rewrite Hw).
  assert (get c i (tick d1 (get c i w).2) = (Resolved (Obj r), tick d1 (get c i w).2)) as Hhit.
  { apply get_hit; [done | by destruct i |].
    rewrite (cache_hit_tick _ d1 _ _ Hentry); [done|]. simpl. lia. }
  rewrite Hhit. split; [done|]. cbn [snd].
  rewrite (get_miss_read (tick d2 (tick d1 (get c i w).2)) c i s); try done.
  - apply new_calls_two.
    destruct (store_get i (records s)); simpl; by rewrite <- app_assoc.
  - unfold cache_hit. simpl. rewrite Hentry.
    destruct (Z.ltb_spec (clock (get c i w).2 + d1 + d2) (expires
      {| value := r; expires := clock w + CACHE_TTL |})) as [H|H]; [|done].
    simpl in H. lia.
  - simpl. by rewrite Hw.
  - simpl. rewrite Hw. simpl. by rewrite Hd.
  - simpl. rewrite Hw. simpl. by rewrite Hf1.
Qed.

Lemma get_hit_keeps_expiry_witness :
  new_calls (get "Mosaic" (IdStr "a") (tick 86399999 stale_world)).2
    (get "Mosaic" (IdStr "a")
       (tick 1 (get "Mosaic" (IdStr "a") (tick 86399999 stale_world)).2)).2
  = [OpTransaction "Mosaic" ReadOnly; OpGet "Mosaic" (IdStr "a")].
Proof.
  destruct (get_hit_keeps_expiry (mosaic_world [photo "a" 1 "old"]) "Mosaic" (IdStr "a")
              (photo "a" 1 "old") 86399999 1) as [_ H];
    [by vm_compute | by vm_compute | by vm_compute | by vm_compute |].
  exact H.
Defined.
